(** * The swingset runner and the sealer of discord-ses-bot

    A shallow embedding of [createSwingsetRunner] (its block and batch
    loops and its message bridge) and of [makeSealer], together with the
    properties of them that the design document states.

    Conventions.
    - JavaScript numbers that the code only uses as counters are integers
      of [Z]; elapsed times ([readClock]) are not modelled, so [runBatch]
      yields its [totalSteps] only.
    - The kernel ([controller], of the package swingset-vat) and the
      bridge device (of [./swingset-devices], which the sources at hand do
      not hold) are taken as they come: they are the methods of the class
      [Controller], over an abstract kernel state. The store is of the
      package swing-store; of it only [commit] matters here.
    - A correlation identifier is a number, as [messageCount] is: the
      outbound callback is given numbers for [msgId]. What it does when
      it is given another value is in [AnyIdentifier].
    - The flags [verbose], [doDumps], [doAudits], [forceGC] and
      [statLogger] are constants of the source ([false] and [null]); the
      branches they guard are never taken and are left out.
    - Every call to a collaborator is recorded, in order, in the [trace]
      of the world. *)

From Stdlib Require Import ZArith Lia Sorted.
From stdpp Require Import base strings list gmap pretty.

Local Open Scope Z_scope.

(** ** JavaScript values *)

Inductive JSValue :=
| VUndefined
| VNull
| VBool (b : bool)
| VNum (n : Z)
| VStr (s : string)
| VObj (addr : nat).

(** ** The runner *)

(** What an [await]ed or called function does: it returns or it throws. *)
Inductive Completion (A : Type) :=
| Returned (a : A)
| Threw (x : JSValue).
Arguments Returned {A} a.
Arguments Threw {A} x.

(** A call into the kernel: the value returned or thrown, the calls
    [(msgId, value)] the kernel made to the outbound bridge callback
    meanwhile, and the kernel state it leaves. *)
Record KernelCall (Engine A : Type) := MkKernelCall {
  completion : Completion A;
  outbound : list (Z * JSValue);
  after : Engine
}.
Arguments MkKernelCall {Engine A} completion outbound after.
Arguments completion {Engine A} k.
Arguments outbound {Engine A} k.
Arguments after {Engine A} k.

(** The kernel as the runner sees it: [controller.step()] and
    [devices.bridge.deliverInbound(messageId, ...args)]. *)
Class Controller (Engine : Type) := {
  step : Engine -> KernelCall Engine Z;
  deliverInbound : Z -> list JSValue -> Engine -> KernelCall Engine unit
}.

(** The settings of the runner that matter below: [blockSize] and
    [blockMode]. *)
Class Options := {
  blockSize : Z;
  blockMode : bool
}.

(** The values the source gives them. *)
Definition sourceOptions : Options :=
  {| blockSize := 200; blockMode := false |}.

(** The source's settings with another block size. *)
Definition blocks_of (size : Z) : Options :=
  {| blockSize := size; blockMode := false |}.

(** [ceil(a / b)] for [b > 0]. *)
Definition ceil_div (a b : Z) : Z := (a + b - 1) / b.

(** The state of the promise made by one [defer()]. *)
Inductive PromiseState :=
| Pending
| Fulfilled (value : JSValue).

(** What the runner asks of its collaborators, as it happens:
    [controller.step()] returned [stepped] or threw [x];
    [store.commit()]; [console.warn('outbound missing msg id', msgId)];
    [deferred.resolve(value)]; [messageResponsePromises[msgId] = deferred];
    [devices.bridge.deliverInbound(msgId, ...args)] was called, and it
    threw [x]. *)
Inductive Event :=
| EvStep (stepped : Z)
| EvStepThrew (x : JSValue)
| EvCommit
| EvWarn (msgId : Z)
| EvResolve (deferred : nat) (value : JSValue)
| EvRegister (msgId : Z) (deferred : nat)
| EvDeliverInbound (msgId : Z) (args : list JSValue)
| EvDeliverThrew (x : JSValue).

(** The variables of the closure of [createSwingsetRunner]. [promises] is
    the heap of the deferreds made by [defer()], a deferred being its
    index; [durable] is the kernel state as of the last [store.commit()]. *)
Record World (Engine : Type) := MkWorld {
  controller : Engine;
  durable : Engine;
  crankNumber : Z;
  messageCount : Z;
  messageResponsePromises : gmap Z nat;
  promises : list PromiseState;
  trace : list Event
}.
Arguments MkWorld {Engine}.
Arguments controller {Engine} w.
Arguments durable {Engine} w.
Arguments crankNumber {Engine} w.
Arguments messageCount {Engine} w.
Arguments messageResponsePromises {Engine} w.
Arguments promises {Engine} w.
Arguments trace {Engine} w.

Section RunnerDefinitions.
Context {Engine : Type} {kernel : Controller Engine} {options : Options}.

(** The closure as [createSwingsetRunner] sets it up, on a kernel [e]
    whose state is the stored one. *)
Definition fresh (e : Engine) : World Engine :=
  MkWorld e e 0 0 ∅ [] [].

(** [ev] happens. *)
Definition record (ev : Event) (w : World Engine) : World Engine :=
  MkWorld (controller w) (durable w) (crankNumber w) (messageCount w)
          (messageResponsePromises w) (promises w) (trace w ++ [ev]).

(** The kernel moves on to [e]. *)
Definition set_controller (e : Engine) (w : World Engine) : World Engine :=
  MkWorld e (durable w) (crankNumber w) (messageCount w)
          (messageResponsePromises w) (promises w) (trace w).

(** [crankNumber += n]. *)
Definition add_cranks (n : Z) (w : World Engine) : World Engine :=
  MkWorld (controller w) (durable w) (crankNumber w + n) (messageCount w)
          (messageResponsePromises w) (promises w) (trace w).

(** [defer()]: a new pending promise. *)
Definition defer (w : World Engine) : nat * World Engine :=
  (length (promises w),
   MkWorld (controller w) (durable w) (crankNumber w) (messageCount w)
           (messageResponsePromises w) (promises w ++ [Pending]) (trace w)).

(** The [resolve] function of a promise: it settles a pending promise
    and does nothing to a settled one. *)
Definition settle (value : JSValue) (p : PromiseState) : PromiseState :=
  match p with
  | Pending => Fulfilled value
  | Fulfilled first => Fulfilled first
  end.

(** [deferred.resolve(value)]. *)
Definition resolve (deferred : nat) (value : JSValue) (w : World Engine)
  : World Engine :=
  record (EvResolve deferred value)
    (MkWorld (controller w) (durable w) (crankNumber w) (messageCount w)
             (messageResponsePromises w)
             (alter (settle value) deferred (promises w)) (trace w)).

(** Modelled from the spec: [store.commit()], of the package swing-store,
    which is not among the sources. The design takes a commit to be atomic
    and durable once it returns: the kernel state of the moment becomes
    the stored one. *)
Definition commit (w : World Engine) : World Engine :=
  record EvCommit
    (MkWorld (controller w) (controller w) (crankNumber w) (messageCount w)
             (messageResponsePromises w) (promises w) (trace w)).

(** [doOutboundBridge(msgId, value)], [msgId] being a number. An entry,
    when there is one, is a deferred, which is truthy; a missing property
    reads as [undefined]. Given a number, neither branch can throw. *)
Definition doOutboundBridge (msgId : Z) (value : JSValue) (w : World Engine)
  : World Engine :=
  match messageResponsePromises w !! msgId with
  | None => record (EvWarn msgId) w
  | Some deferred => resolve deferred value w
  end.

(** The callbacks a kernel call makes, in order. *)
Definition callbacks (out : list (Z * JSValue)) (w : World Engine)
  : World Engine :=
  fold_left (fun w c => doOutboundBridge (fst c) (snd c) w) out w.

(** [await controller.step()]. *)
Definition await_step (w : World Engine) : Completion Z * World Engine :=
  let k := step (controller w) in
  let w := set_controller (after k) (callbacks (outbound k) w) in
  match completion k with
  | Returned stepped => (Returned stepped, record (EvStep stepped) w)
  | Threw x => (Threw x, record (EvStepThrew x) w)
  end.

(** The [while (requestedSteps > 0)] loop of [runBlock]; [n] is the
    number of iterations [requestedSteps] still allows. *)
Fixpoint runBlock_loop (n : nat) (actualSteps : Z) (w : World Engine)
  : Completion Z * World Engine :=
  match n with
  | O => (Returned actualSteps, w)
  | S n =>
      match await_step w with
      | (Threw x, w) => (Threw x, w)
      | (Returned stepped, w) =>
          if stepped <? 1 then (Returned actualSteps, w)
          else runBlock_loop n (actualSteps + stepped) (add_cranks stepped w)
      end
  end.

(** [runBlock(requestedSteps, doCommit)]: the loop, then the commit. A
    step that throws ends the function there. *)
Definition runBlock (requestedSteps : Z) (doCommit : bool) (w : World Engine)
  : Completion Z * World Engine :=
  match runBlock_loop (Z.to_nat requestedSteps) 0 w with
  | (Threw x, w) => (Threw x, w)
  | (Returned actualSteps, w) =>
      (Returned actualSteps, if doCommit then commit w else w)
  end.

(** The [do ... while] loop of [runBatch]. It need not end (a kernel may
    never run out of work): [None] is a run that [fuel] blocks do not
    finish. *)
Fixpoint runBatch_loop (fuel : nat) (doCommit runAll : bool)
    (stepLimit totalSteps : Z) (w : World Engine)
  : option (Completion Z * World Engine) :=
  match fuel with
  | O => None
  | S fuel =>
      match runBlock blockSize doCommit w with
      | (Threw x, w) => Some (Threw x, w)
      | (Returned steps, w) =>
          let totalSteps := totalSteps + steps in
          let stepLimit := stepLimit - steps in
          if (runAll || (stepLimit >? 0)) && (steps >=? blockSize)
          then runBatch_loop fuel doCommit runAll stepLimit totalSteps w
          else Some (Returned totalSteps, w)
      end
  end.

(** [runBatch(stepLimit, doCommit)], with [runAll = stepLimit === 0]. *)
Definition runBatch (fuel : nat) (stepLimit : Z) (doCommit : bool)
    (w : World Engine) : option (Completion Z * World Engine) :=
  runBatch_loop fuel doCommit (stepLimit =? 0) stepLimit 0 w.

(** [createSwingsetRunner()] from the point where the kernel is made: the
    first [runBatch(0, blockMode)], after which the runner is handed out
    with [messageCount = 0]. *)
Definition createSwingsetRunner (fuel : nat) (e : Engine)
  : option (Completion unit * World Engine) :=
  match runBatch fuel 0 blockMode (fresh e) with
  | None => None
  | Some (Threw x, w) => Some (Threw x, w)
  | Some (Returned _, w) => Some (Returned tt, w)
  end.

(** [handleMessage] up to its first [await]: the identifier, the
    deferred, and the call of [deliverInbound]. *)
Definition accept (args : list JSValue) (w : World Engine)
  : Completion (Z * nat) * World Engine :=
  let messageId := messageCount w in
  let w := MkWorld (controller w) (durable w) (crankNumber w)
                   (messageCount w + 1) (messageResponsePromises w)
                   (promises w) (trace w) in
  let (deferred, w) := defer w in
  let w := record (EvRegister messageId deferred)
             (MkWorld (controller w) (durable w) (crankNumber w)
                      (messageCount w)
                      (<[messageId := deferred]> (messageResponsePromises w))
                      (promises w) (trace w)) in
  let k := deliverInbound messageId args (controller w) in
  let w := record (EvDeliverInbound messageId args) w in
  let w := set_controller (after k) (callbacks (outbound k) w) in
  match completion k with
  | Returned _ => (Returned (messageId, deferred), w)
  | Threw x => (Threw x, record (EvDeliverThrew x) w)
  end.

(** [handleMessage(...args)], run without another call in between: what
    it returns is the deferred whose promise the caller awaits. *)
Definition handleMessage (fuel : nat) (args : list JSValue) (w : World Engine)
  : option (Completion nat * World Engine) :=
  match accept args w with
  | (Threw x, w) => Some (Threw x, w)
  | (Returned (_, deferred), w) =>
      match runBatch fuel 0 blockMode w with
      | None => None
      | Some (Threw x, w) => Some (Threw x, w)
      | Some (Returned _, w) => Some (Returned deferred, w)
      end
  end.

(** What the caller of [handleMessage] gets from the promise. *)
Definition settled (deferred : nat) (w : World Engine) : option JSValue :=
  match promises w !! deferred with
  | Some (Fulfilled value) => Some value
  | _ => None
  end.

End RunnerDefinitions.

(** ** The outbound callback, whatever it is given

    The definitions above take the [msgId] that the kernel hands to the
    callback to be a number. [messageResponsePromises] is a plain object
    ([{}]), though, and [messageResponsePromises[msgId]] reads it under
    whatever the callback is given: under the property key that the value
    is, the object has what was registered, the key of an identifier
    being its numeral, and otherwise what every plain object inherits
    from [Object.prototype]. *)

Module AnyIdentifier.

(** The names of the properties of [Object.prototype]. Under each there
    is a function, and under [__proto__] the prototype itself: values
    that are truthy and have no [resolve]. *)
Definition objectPrototype : list string :=
  ["constructor"; "__defineGetter__"; "__defineSetter__"; "hasOwnProperty";
   "__lookupGetter__"; "__lookupSetter__"; "isPrototypeOf";
   "propertyIsEnumerable"; "toString"; "valueOf"; "__proto__";
   "toLocaleString"]%string.

(** The last character of a text. *)
Fixpoint last_character (s : string) : option Ascii.ascii :=
  match s with
  | EmptyString => None
  | String c rest =>
      match rest with
      | EmptyString => Some c
      | String _ _ => last_character rest
      end
  end.

(** What [messageResponsePromises[msgId]] reads: a deferred that was
    registered, a member of [Object.prototype], or [undefined]. *)
Inductive Property :=
| Deferred (deferred : nat)
| Member (name : string)
| Undefined.

(** How a call of the callback ends: it has called [resolve] on the
    entry and returns, leaving the world [w]; it has called
    [console.warn('outbound missing msg id', msgId)] and returns, the
    world being as it was; or it throws the [TypeError] of calling what
    is no function, the world being as it was. *)
Inductive Outbound (Engine : Type) :=
| Resolved (w : World Engine)
| Warned (msgId : JSValue)
| ThrewTypeError.
Arguments Resolved {Engine} w.
Arguments Warned {Engine} msgId.
Arguments ThrewTypeError {Engine}.

Section Outbound.
Context {Engine : Type}.
(** The text that the object at an address is turned into when it is
    used as a property name. *)
Variable ToString : nat -> string.

(** The key that a value is as a property name. *)
Definition property_key (msgId : JSValue) : string :=
  match msgId with
  | VUndefined => "undefined"
  | VNull => "null"
  | VBool true => "true"
  | VBool false => "false"
  | VNum n => pretty n
  | VStr s => s
  | VObj addr => ToString addr
  end.

(** The properties that [messageResponsePromises] has of its own. *)
Definition own_properties (w : World Engine) : gmap string nat :=
  kmap (pretty : Z -> string) (messageResponsePromises w).

(** [messageResponsePromises[msgId]]. *)
Definition get (key : string) (w : World Engine) : Property :=
  match own_properties w !! key with
  | Some deferred => Deferred deferred
  | None =>
      if decide (key ∈ objectPrototype) then Member key else Undefined
  end.

(** [doOutboundBridge(msgId, value)]. *)
Definition doOutboundBridge (msgId value : JSValue) (w : World Engine)
  : Outbound Engine :=
  match get (property_key msgId) w with
  | Undefined => Warned msgId
  | Deferred deferred => Resolved (resolve deferred value w)
  | Member _ => ThrewTypeError
  end.

End Outbound.

End AnyIdentifier.

(** ** Interleavings

    [handleMessage], [runBatch] and [runBlock] are [async]: between two of
    their [await]s other calls may run. What one of them does without
    interruption is one of the actions below, so any interleaving of calls
    drives the world by a list of actions. *)

Inductive Action :=
| ActAccept (args : list JSValue)
| ActCrank
| ActCommit
| ActOutbound (msgId : Z) (value : JSValue).

Section Interleavings.
Context {Engine : Type} {kernel : Controller Engine}.

(** One pass of the loop of [runBlock]. *)
Definition crank (w : World Engine) : World Engine :=
  match await_step w with
  | (Threw _, w) => w
  | (Returned stepped, w) =>
      if stepped <? 1 then w else add_cranks stepped w
  end.

(** What an action does to the world. *)
Definition exec (a : Action) (w : World Engine) : World Engine :=
  match a with
  | ActAccept args => snd (accept args w)
  | ActCrank => crank w
  | ActCommit => commit w
  | ActOutbound msgId value => doOutboundBridge msgId value w
  end.

Definition execs (acts : list Action) (w : World Engine) : World Engine :=
  fold_left (fun w a => exec a w) acts w.

(** The actions of [runBlock] and [runBatch]. *)
Definition kernel_action (a : Action) : Prop :=
  a = ActCrank \/ a = ActCommit.

(** The kernel's queue holds exactly [k] units of work: [k] steps run a
    unit each and the next one reports that nothing is left. *)
Fixpoint queue_holds (k : nat) (e : Engine) : Prop :=
  match k with
  | O => completion (step e) = Returned 0
  | S k => completion (step e) = Returned 1 /\ queue_holds k (after (step e))
  end.

(** A kernel whose steps run one unit at most, as the kernel's do. *)
Definition unit_steps : Prop :=
  forall e stepped, completion (step e) = Returned stepped ->
                    stepped = 0 \/ stepped = 1.

End Interleavings.

(** ** Reading a trace *)

(** The identifiers [handleMessage] issued, in order. *)
Fixpoint issued (tr : list Event) : list Z :=
  match tr with
  | [] => []
  | EvRegister msgId _ :: tr => msgId :: issued tr
  | _ :: tr => issued tr
  end.

(** The identifiers warned about. *)
Fixpoint warnings (tr : list Event) : list Z :=
  match tr with
  | [] => []
  | EvWarn msgId :: tr => msgId :: warnings tr
  | _ :: tr => warnings tr
  end.

(** The units the steps reported. *)
Fixpoint units (tr : list Event) : Z :=
  match tr with
  | [] => 0
  | EvStep stepped :: tr => stepped + units tr
  | _ :: tr => units tr
  end.

(** The calls of [controller.step()]. *)
Fixpoint attempts (tr : list Event) : nat :=
  match tr with
  | [] => O
  | EvStep _ :: tr => S (attempts tr)
  | EvStepThrew _ :: tr => S (attempts tr)
  | _ :: tr => attempts tr
  end.

(** For each [store.commit()], the units run since the one before;
    [pending] is what has run before [tr]. *)
Fixpoint committed (pending : Z) (tr : list Event) : list Z :=
  match tr with
  | [] => []
  | EvCommit :: tr => pending :: committed 0 tr
  | EvStep stepped :: tr => committed (pending + stepped) tr
  | _ :: tr => committed pending tr
  end.

(** What [await controller.step()] records. *)
Definition step_event (c : Completion Z) : Event :=
  match c with
  | Returned stepped => EvStep stepped
  | Threw x => EvStepThrew x
  end.

(** What [w'] has recorded since [w]. *)
Definition since {Engine : Type} (w w' : World Engine) : list Event :=
  drop (length (trace w)) (trace w').

(** The events of the outbound bridge callback. *)
Definition bridge_event (ev : Event) : Prop :=
  match ev with
  | EvWarn _ | EvResolve _ _ => True
  | _ => False
  end.

(** The world in which [handleMessage] calls [deliverInbound]. *)
Definition at_delivery {Engine : Type} (args : list JSValue) (w : World Engine)
  : World Engine :=
  MkWorld (controller w) (durable w) (crankNumber w) (messageCount w + 1)
          (<[messageCount w := length (promises w)]> (messageResponsePromises w))
          (promises w ++ [Pending])
          (trace w ++ [EvRegister (messageCount w) (length (promises w));
                       EvDeliverInbound (messageCount w) args]).

(** What [await devices.bridge.deliverInbound(...)] records when it ends. *)
Definition deliver_event (c : Completion unit) : list Event :=
  match c with
  | Returned _ => []
  | Threw x => [EvDeliverThrew x]
  end.

(** ** A scripted kernel

    A kernel to run the definitions on: its state is the list of what its
    next steps do, an empty list being an empty run queue;
    [deliverInbound] queues a crank that hands the first argument back to
    the outbound bridge under the message's identifier. *)

Definition Script := list (Completion Z * list (Z * JSValue)).

Definition scripted_step (q : Script) : KernelCall Script Z :=
  match q with
  | [] => MkKernelCall (Returned 0) [] []
  | (c, out) :: q => MkKernelCall c out q
  end.

Definition scripted_deliverInbound (messageId : Z) (args : list JSValue)
    (q : Script) : KernelCall Script unit :=
  MkKernelCall (Returned tt) []
    (q ++ [(Returned 1, [(messageId, default VUndefined (head args))])]).

#[export] Instance scripted : Controller Script :=
  {| step := scripted_step; deliverInbound := scripted_deliverInbound |}.

(** A run queue of [k] cranks that call nothing back. *)
Definition idle (k : nat) : Script := replicate k (Returned 1, []).

(** A kernel that only counts: its state is the number of cranks in its
    run queue, a step runs one of them, a message adds one. *)
#[export] Instance counting : Controller nat :=
  {| step k :=
       match k with
       | O => MkKernelCall (Returned 0) [] O
       | S k => MkKernelCall (Returned 1) [] k
       end;
     deliverInbound _ _ k := MkKernelCall (Returned tt) [] (S k) |}.

(** ** The sealer *)

Module Sealer.

(** An object is its properties. *)
Definition JSObject : Type := list (string * JSValue).

(** The objects made so far, an object's identity being its index, and
    the [unsealMap] of every sealer made so far, a [WeakMap] being a
    finite map from identities. *)
Record Realm := MkRealm {
  objects : list JSObject;
  unsealMaps : list (gmap nat JSValue)
}.

Definition empty : Realm := MkRealm [] [].

(** [makeSealer()]: the sealer is the index of its [unsealMap]. *)
Definition makeSealer (r : Realm) : nat * Realm :=
  (length (unsealMaps r), MkRealm (objects r) (unsealMaps r ++ [∅])).

Definition seal (sealer : nat) (original label : JSValue) (r : Realm)
  : JSValue * Realm :=
  let sealed := length (objects r) in
  (VObj sealed,
   MkRealm (objects r ++ [[("type"%string, VStr "sealed"); ("label"%string, label)]])
           (alter (insert sealed original) sealer (unsealMaps r))).

(** [WeakMap.prototype.get]: [undefined] for a key that is not an
    object or that has no entry. *)
Definition unseal (sealer : nat) (sealed : JSValue) (r : Realm) : JSValue :=
  match sealed, unsealMaps r !! sealer with
  | VObj addr, Some unsealMap => default VUndefined (unsealMap !! addr)
  | _, _ => VUndefined
  end.

(** What a program does to the realm: it makes an object of its own, it
    makes a sealer, or it seals with a sealer it has made. *)
Inductive Op :=
| OpObject (o : JSObject)
| OpMakeSealer
| OpSeal (sealer : nat) (original label : JSValue).

Definition run_op (op : Op) (r : Realm) : Realm :=
  match op with
  | OpObject o => MkRealm (objects r ++ [o]) (unsealMaps r)
  | OpMakeSealer => snd (makeSealer r)
  | OpSeal sealer original label =>
      if decide (sealer < length (unsealMaps r))%nat
      then snd (seal sealer original label r) else r
  end.

Definition run (ops : list Op) (r : Realm) : Realm :=
  fold_left (fun r op => run_op op r) ops r.

(** The objects that [seal] of [sealer] returned while [ops] ran. *)
Fixpoint sealed_by (sealer : nat) (ops : list Op) (r : Realm) : list nat :=
  match ops with
  | [] => []
  | op :: ops =>
      match op with
      | OpSeal s _ _ =>
          if decide (s = sealer /\ s < length (unsealMaps r))%nat
          then length (objects r) :: sealed_by sealer ops (run_op op r)
          else sealed_by sealer ops (run_op op r)
      | _ => sealed_by sealer ops (run_op op r)
      end
  end.

(** Every key of every [unsealMap] is an object that exists. *)
Definition keys_exist (r : Realm) : Prop :=
  forall sealer (unsealMap : gmap nat JSValue) addr,
    unsealMaps r !! sealer = Some unsealMap ->
    is_Some (unsealMap !! addr) ->
    (addr < length (objects r))%nat.

End Sealer.

(** ** The benchmark *)

(** What [runBenchmark] asks of the kernel besides its steps:
    [controller.queueToVatExport(vatName, 'o+0', method, args, 'ignore')],
    which queues a message and returns the identifier of its result
    promise, [controller.kpStatus(kpid)] and
    [controller.kpResolution(kpid)]. *)
Class Benchmarked (Engine : Type) := {
  queueToVatExport : string -> string -> string -> Engine -> string * Engine;
  kpStatus : string -> Engine -> string;
  kpResolution : string -> Engine -> JSValue
}.

(** A constant of the source. *)
Definition launchIndirectly : bool := false.

(** What [runBenchmark] logs of a round: that round [round] did not
    finish, or its status and its resolution (which the source prints
    with [JSON.stringify]). *)
Inductive RoundReport :=
| DidNotFinish (round : Z)
| Finished (round : Z) (status : string) (resolution : JSValue).

Definition round_of (report : RoundReport) : Z :=
  match report with
  | DidNotFinish round => round
  | Finished round _ _ => round
  end.

Section Benchmark.
Context {Engine : Type} {kernel : Controller Engine} {options : Options}
        {promises_of_kernel : Benchmarked Engine}.

(** The [for (let i = 0; i < rounds; i += 1)] loop of [runBenchmark],
    with [n] rounds to go; [fuel] is for each batch. The statistics that
    the source samples around the loop and hands to
    [organizeBenchmarkStats] and [printBenchmarkStats] take no part in
    what it returns and are left out, as the elapsed time is. *)
Fixpoint runBenchmark_loop (fuel n : nat) (i totalSteps : Z)
    (log : list RoundReport) (w : World Engine)
  : option (Completion Z * list RoundReport * World Engine) :=
  match n with
  | O => Some (Returned totalSteps, log, w)
  | S n =>
      let (roundResult, e) :=
        queueToVatExport (if launchIndirectly then "launcher" else "bootstrap")
          "o+0" "runBenchmarkRound" (controller w) in
      match runBatch fuel 0 true (set_controller e w) with
      | None => None
      | Some (Threw x, w) => Some (Threw x, log, w)
      | Some (Returned steps, w) =>
          let status := kpStatus roundResult (controller w) in
          let report :=
            if String.eqb status "unresolved" then DidNotFinish (i + 1)
            else Finished (i + 1) status
                   (kpResolution roundResult (controller w)) in
          runBenchmark_loop fuel n (i + 1) (totalSteps + steps)
            (log ++ [report]) w
      end
  end.

(** [runBenchmark(rounds)]: what it returns or throws, what it has
    logged, and the world it leaves. *)
Definition runBenchmark (fuel : nat) (rounds : Z) (w : World Engine)
  : option (Completion Z * list RoundReport * World Engine) :=
  runBenchmark_loop fuel (Z.to_nat rounds) 0 0 [] w.

End Benchmark.

(** The world a benchmark leaves, [w] when it does not end. *)
Definition bench_world {Engine : Type}
    (r : option (Completion Z * list RoundReport * World Engine))
    (w : World Engine) : World Engine :=
  match r with
  | Some (_, _, w') => w'
  | None => w
  end.

(** The counting kernel under benchmark: a round is one crank, and its
    result is resolved once the run queue is empty. *)
#[export] Instance counting_benchmarked : Benchmarked nat :=
  {| queueToVatExport _ _ _ k := ("kp1"%string, S k);
     kpStatus _ k :=
       match k with O => "fulfilled"%string | S _ => "unresolved"%string end;
     kpResolution _ _ := VUndefined |}.

(** ** The indirect configuration *)

(** [ToBoolean]. *)
Definition truthy (v : JSValue) : bool :=
  match v with
  | VUndefined | VNull => false
  | VBool b => b
  | VNum n => negb (n =? 0)
  | VStr s => negb (String.eqb s "")
  | VObj _ => true
  end.

Module IndirectConfig.

(** A vat of a configuration: the properties of the object. *)
Abbreviation Vat := (gmap string JSValue).

(** The own properties of an object whose keys are gone through, in the
    order of [Object.keys]; a property is read at its first place. *)
Fixpoint own {V : Type} (name : string) (o : list (string * V)) : option V :=
  match o with
  | [] => None
  | (k, v) :: o => if decide (k = name) then Some v else own name o
  end.

(** [baseConfig]: [bootstrap], [vats] and [bundles]. A configuration
    holds an object under [vats] and under [bundles], or nothing:
    [base_vats] is [None] when [baseConfig.vats] is falsy, and
    [base_bundles] is [None] when [baseConfig.bundles] is [undefined] or
    [null], the values of which no property can be read. Configurations
    with a primitive value there are not among those modelled. *)
Record BaseConfig := MkBaseConfig {
  base_bootstrap : JSValue;
  base_vats : option (list (string * Vat));
  base_bundles : option (list (string * JSValue))
}.

(** A bundle of the generated configuration: [{ sourceSpec: v }],
    [{ bundleSpec: v }] or [{ bundle: v }], made here, or what was read
    from [baseConfig.bundles]. *)
Inductive BundleEntry :=
| SourceSpec (v : JSValue)
| BundleSpec (v : JSValue)
| Bundle (v : JSValue)
| Given (v : JSValue).

(** The generated configuration: [bootstrap], [bundles], and of
    [vats.launcher] its [sourceSpec] and, in [parameters.config], its
    [bootstrap] and [vats]. *)
Record Config := MkConfig {
  bootstrap : string;
  bundles : gmap string BundleEntry;
  launcherSourceSpec : string;
  launcherBootstrap : JSValue;
  launcherVats : gmap string Vat
}.

(** How the function ends when it does not return: [fail(message)], which
    logs and calls [process.exit(1)], or the [TypeError] of reading a
    property of [undefined]. *)
Inductive Outcome (A : Type) :=
| Done (a : A)
| Exit (message : string)
| TypeError.
Arguments Done {A} a.
Arguments Exit {A} message.
Arguments TypeError {A}.

Section Generate.
(** [ToString] of a value that is not a string, what a plain object
    inherits under a name that it does not own ([undefined] but for the
    names of [Object.prototype]), and
    [path.resolve(__dirname, 'vat-launcher.js')]. *)
Variable ToString : JSValue -> string.
Variable inherited : string -> JSValue.
Variable launcherPath : string.

(** The key that a value is as a property name. *)
Definition property_key (v : JSValue) : string :=
  match v with
  | VStr s => s
  | _ => ToString v
  end.

(** [o[name]], read. *)
Definition get (o : Vat) (name : string) : JSValue :=
  default (inherited name) (o !! name).

(** [o[name] = v] on an object made by a literal: an own property, but
    for [__proto__], which sets the prototype and adds no property. *)
Definition assign {V : Type} (name : string) (v : V) (o : gmap string V)
  : gmap string V :=
  if decide (name = "__proto__") then o else <[name := v]> o.

(** The body of the loop over [Object.keys(baseConfig.vats)]. *)
Definition rewrite_vat (base : BaseConfig) (vats : list (string * Vat))
    (vatName : string) (st : gmap string BundleEntry * gmap string Vat)
  : Outcome (gmap string BundleEntry * gmap string Vat) :=
  let baseVat : Vat := default ∅ (own vatName vats) in
  let newBundleName := VStr ("bundle-" +:+ vatName) in
  let finish bundles (baseVat : Vat) newBundleName :=
    Done (bundles,
          assign vatName (<["bundleName" := newBundleName]> baseVat) st.2) in
  if truthy (get baseVat "sourceSpec") then
    finish (assign (property_key newBundleName)
              (SourceSpec (get baseVat "sourceSpec")) st.1)
           (delete "sourceSpec" baseVat) newBundleName
  else if truthy (get baseVat "bundleSpec") then
    finish (assign (property_key newBundleName)
              (BundleSpec (get baseVat "bundleSpec")) st.1)
           (delete "bundleSpec" baseVat) newBundleName
  else if truthy (get baseVat "bundle") then
    finish (assign (property_key newBundleName)
              (Bundle (get baseVat "bundle")) st.1)
           (delete "bundle" baseVat) newBundleName
  else if truthy (get baseVat "bundleName") then
    let newBundleName := get baseVat "bundleName" in
    match base_bundles base with
    | None => TypeError
    | Some given =>
        finish (assign (property_key newBundleName)
                  (Given (default (inherited (property_key newBundleName))
                            (own (property_key newBundleName) given)))
                  st.1)
               baseVat newBundleName
    end
  else Exit "this can't happen".

Fixpoint rewrite_vats (base : BaseConfig) (vats : list (string * Vat))
    (keys : list string) (st : gmap string BundleEntry * gmap string Vat)
  : Outcome (gmap string BundleEntry * gmap string Vat) :=
  match keys with
  | [] => Done st
  | vatName :: keys =>
      match rewrite_vat base vats vatName st with
      | Done st => rewrite_vats base vats keys st
      | Exit message => Exit message
      | TypeError => TypeError
      end
  end.

(** The loop over [Object.keys(baseConfig.bundles)]. *)
Definition copy_bundles (given : list (string * JSValue))
    (bundles : gmap string BundleEntry) : gmap string BundleEntry :=
  fold_left
    (fun bundles bundleName =>
       assign bundleName
         (Given (default (inherited bundleName) (own bundleName given)))
         bundles)
    given.*1 bundles.

Definition generateIndirectConfig (base : BaseConfig) : Outcome Config :=
  match
    match base_vats base with
    | Some vats => rewrite_vats base vats vats.*1 (∅, ∅)
    | None => Done (∅, ∅)
    end
  with
  | Done (bundles, vats) =>
      Done (MkConfig "launcher"
              match base_bundles base with
              | Some given => copy_bundles given bundles
              | None => bundles
              end
              launcherPath (base_bootstrap base) vats)
  | Exit message => Exit message
  | TypeError => TypeError
  end.

(** The four properties that say where the code of a vat is. *)
Definition code_properties : list string :=
  ["sourceSpec"; "bundleSpec"; "bundle"; "bundleName"]%string.

(** A vat says where its code is. *)
Definition sourced (vat : Vat) : bool :=
  existsb (fun name => truthy (get vat name)) code_properties.

(** Every vat of [baseConfig] says where its code is. *)
Definition all_sourced (base : BaseConfig) : bool :=
  match base_vats base with
  | Some vats =>
      forallb (fun vatName => sourced (default ∅ (own vatName vats))) vats.*1
  | None => true
  end.

(** What a bundle of the generated configuration is under [name]: one
    made here of a truthy [sourceSpec], [bundleSpec] or [bundle], or what
    [baseConfig.bundles[name]] reads as, which is [undefined] when
    [baseConfig.bundles] has no such property of its own and inherits
    none. *)
Definition bundle_read (base : BaseConfig) (name : string)
    (entry : BundleEntry) : Prop :=
  match entry with
  | SourceSpec v | BundleSpec v | Bundle v => truthy v = true
  | Given v =>
      exists given,
        base_bundles base = Some given /\
        v = default (inherited name) (own name given)
  end.

(** What the generated vats and bundles are to one another. *)
Definition linked (base : BaseConfig) (vats : list (string * Vat))
    (st : gmap string BundleEntry * gmap string Vat) : Prop :=
  forall vatName (vat' : Vat),
    st.2 !! vatName = Some vat' ->
    exists newBundleName (vat : Vat),
      own vatName vats = Some vat /\
      vat' !! "bundleName"%string = Some newBundleName /\
      (property_key newBundleName <> "__proto__"%string ->
       exists entry,
         st.1 !! property_key newBundleName = Some entry /\
         bundle_read base (property_key newBundleName) entry) /\
      (forall name, name ∉ code_properties -> vat' !! name = vat !! name).

(** The configuration generated, an empty one when there is none. *)
Definition config_of (o : Outcome Config) : Config :=
  match o with
  | Done cfg => cfg
  | _ => MkConfig "" ∅ "" VUndefined ∅
  end.

End Generate.

(** A configuration to run the function on: a vat with a source, a vat
    that names a bundle, and that bundle. *)
Definition example_base : BaseConfig :=
  MkBaseConfig (VStr "boot")
    (Some [("alice"%string,
            <["sourceSpec"%string := VStr "alice.js"]>
              (<["parameters"%string := VNum 1]> ∅));
           ("bob"%string, <["bundleName"%string := VStr "shared"]> ∅)])
    (Some [("shared"%string, VObj 0)]).

(** The same without its bundles. *)
Definition example_without_bundles : BaseConfig :=
  MkBaseConfig (VStr "boot") (base_vats example_base) None.

(** The function where nothing is inherited. *)
Definition example_generate (base : BaseConfig) : Outcome Config :=
  generateIndirectConfig (fun _ => "[object Object]"%string)
    (fun _ => VUndefined) "/vat-launcher.js" base.

End IndirectConfig.

(** ** The replay of the log

    [replayPastFromDisk] of [load-from-logs.js]. The machine comes from
    [./machine.js], which the sources at hand do not hold: it is taken as
    it comes, as the methods of the class [Machine] over an abstract
    state, and it may read and write files as it pleases. Of the file
    system, a path holds a file or makes the calls of [fs.promises] fail
    with a code. [JSON.parse] together with the destructuring
    [const { id, command } = ...] is the function [parse] that the
    definitions take. *)

Module ReplayLog.

(** What a path holds. A path that holds nothing makes [stat] and
    [readFile] fail with [ENOENT], and [writeFile] creates the file. *)
Inductive Node :=
| File (content : string)
| Failing (code : string).

Abbreviation FS := (gmap string Node).

(** What is thrown: an error of the file system, known by its [code], or
    any other value. *)
Inductive Failure :=
| FsError (code : string)
| Thrown (x : JSValue).

(** How the promise of an [async] function ends. *)
Inductive End :=
| Finished
| Rejected (err : Failure)
| NeverSettles.

(** [pfs.stat(path)]: the code of the error, if it fails. *)
Definition stat (path : string) (fs : FS) : option string :=
  match fs !! path with
  | None => Some "ENOENT"%string
  | Some (File _) => None
  | Some (Failing code) => Some code
  end.

(** [pfs.readFile(path, 'utf-8')]: the text, or the code of the error. *)
Definition readFile (path : string) (fs : FS) : string + string :=
  match fs !! path with
  | None => inr "ENOENT"%string
  | Some (File content) => inl content
  | Some (Failing code) => inr code
  end.

(** [pfs.writeFile(path, data)]. *)
Definition writeFile (path data : string) (fs : FS) : option string * FS :=
  match fs !! path with
  | Some (Failing code) => (Some code, fs)
  | _ => (None, <[path := File data]> fs)
  end.

(** [s.split(separator)], for a separator of one character. *)
Fixpoint split (separator : Ascii.ascii) (s : string) : list string :=
  match s with
  | EmptyString => [EmptyString]
  | String c rest =>
      if Ascii.eqb c separator then EmptyString :: split separator rest
      else match split separator rest with
           | line :: lines => String c line :: lines
           | [] => [String c EmptyString]
           end
  end.

(** The line feed, ['\n']. *)
Definition newline : Ascii.ascii := Ascii.ascii_of_nat 10.

(** The text [{"id":"0","command":"0"}]. *)
Definition defaultEntry : string :=
  let q := String (Ascii.ascii_of_nat 34) EmptyString in
  ("{" +:+ q +:+ "id" +:+ q +:+ ":" +:+ q +:+ "0" +:+ q +:+ ","
   +:+ q +:+ "command" +:+ q +:+ ":" +:+ q +:+ "0" +:+ q +:+ "}")%string.

(** The machine of [./machine.js]: [createMachine()] and
    [machine.handleMessage(id, command)], both awaited. [None]: the
    promise never settles. *)
Class Machine (M : Type) := {
  createMachine : FS -> option (Completion M * FS);
  machine_handleMessage :
    JSValue -> JSValue -> M -> FS -> option (Completion JSValue * M * FS)
}.

(** What a replay leaves: the files, the machine if it was created, the
    calls of [machine.handleMessage] it has made, in order, and what it
    has given to [console.error]. *)
Record Replay (M : Type) := MkReplay {
  files : FS;
  machine : option M;
  handled : list (JSValue * JSValue);
  errors : list Failure
}.
Arguments MkReplay {M} _ _ _ _.
Arguments files {M} _.
Arguments machine {M} _.
Arguments handled {M} _.
Arguments errors {M} _.

Section Replay.
Context {M : Type} {machines : Machine M}.
Variable defaultLogPath : string.
Variable parse : string -> Completion (JSValue * JSValue).

(** [ensureLogfileExists()]: the error it throws, if it does. *)
Definition ensureLogfileExists (st : Replay M) : option Failure * Replay M :=
  match stat defaultLogPath (files st) with
  | None => (None, st)
  | Some code =>
      if String.eqb code "ENOENT" then
        let '(failed, fs) := writeFile defaultLogPath defaultEntry (files st) in
        (FsError <$> failed,
         MkReplay fs (machine st) (handled st) (errors st))
      else
        (Some (FsError code),
         MkReplay (files st) (machine st) (handled st)
           (errors st ++ [FsError code]))
  end.

(** The loop [for await (const entry of lines)], the machine being [m]. *)
Fixpoint replayLines (lines : list string) (m : M) (st : Replay M)
  : End * Replay M :=
  match lines with
  | [] => (Finished, st)
  | entry :: lines =>
      match parse entry with
      | Threw x => (Rejected (Thrown x), st)
      | Returned (id, command) =>
          let called := handled st ++ [(id, command)] in
          match machine_handleMessage id command m (files st) with
          | None =>
              (NeverSettles, MkReplay (files st) (machine st) called (errors st))
          | Some (Threw x, m', fs) =>
              (Rejected (Thrown x), MkReplay fs (Some m') called (errors st))
          | Some (Returned _, m', fs) =>
              replayLines lines m' (MkReplay fs (Some m') called (errors st))
          end
      end
  end.

(** [replayPastFromDisk(filePath)], started with the files [fs]. The
    source reads [defaultLogPath] whatever [filePath] is. *)
Definition replayPastFromDisk (filePath : string) (fs : FS)
  : End * Replay M :=
  match createMachine fs with
  | None => (NeverSettles, MkReplay fs None [] [])
  | Some (Threw x, fs) => (Rejected (Thrown x), MkReplay fs None [] [])
  | Some (Returned m, fs) =>
      match ensureLogfileExists (MkReplay fs (Some m) [] []) with
      | (Some err, st) => (Rejected err, st)
      | (None, st) =>
          match readFile defaultLogPath (files st) with
          | inr code => (Rejected (FsError code), st)
          | inl file => replayLines (split newline file) m st
          end
      end
  end.

End Replay.

(** A machine that answers every message with its command and counts
    them. *)
Definition counter : Machine nat :=
  {| createMachine fs := Some (Returned O, fs);
     machine_handleMessage _ command n fs := Some (Returned command, S n, fs) |}.

(** A parser for the witnesses: the empty text is no JSON text, the
    default entry is read as it is written, and every other line is taken
    for an entry of the author [1] with the line as its command. *)
Definition example_parse (entry : string) : Completion (JSValue * JSValue) :=
  if String.eqb entry "" then Threw (VStr "SyntaxError")
  else if String.eqb entry defaultEntry then Returned (VStr "0", VStr "0")
  else Returned (VStr "1", VStr entry).

(** A log of two entries that ends with a line feed, alone in its
    directory; and a log that cannot be reached. *)
Definition example_log : string :=
  (defaultEntry +:+ String newline "ping" +:+ String newline "")%string.

Definition example_files : FS := {[ "log.txt"%string := File example_log ]}.

Definition locked_files : FS := {[ "log.txt"%string := Failing "EACCES" ]}.

End ReplayLog.

(** ** A batch, block by block *)

Section BatchRuns.
Context {Engine : Type} {kernel : Controller Engine} {options : Options}.

(** [batch_run doCommit runAll stepLimit totalSteps w c w']: the loop of
    [runBatch], entered in the world [w] with [stepLimit] and
    [totalSteps], ends with [c] in the world [w']. A block that throws
    ends it; so does a block after which the test of the loop fails;
    after any other block the loop goes round. *)
Inductive batch_run (doCommit runAll : bool)
  : Z -> Z -> World Engine -> Completion Z -> World Engine -> Prop :=
| batch_threw stepLimit totalSteps w x w1 :
    runBlock blockSize doCommit w = (Threw x, w1) ->
    batch_run doCommit runAll stepLimit totalSteps w (Threw x) w1
| batch_last stepLimit totalSteps w steps w1 :
    runBlock blockSize doCommit w = (Returned steps, w1) ->
    (runAll || (stepLimit - steps >? 0)) && (steps >=? blockSize) = false ->
    batch_run doCommit runAll stepLimit totalSteps w
      (Returned (totalSteps + steps)) w1
| batch_more stepLimit totalSteps w steps w1 c w' :
    runBlock blockSize doCommit w = (Returned steps, w1) ->
    (runAll || (stepLimit - steps >? 0)) && (steps >=? blockSize) = true ->
    batch_run doCommit runAll (stepLimit - steps) (totalSteps + steps) w1 c w' ->
    batch_run doCommit runAll stepLimit totalSteps w c w'.

End BatchRuns.

(** ** The promises and the mapping, as the runner keeps them *)

(** The state of a promise that was resolved with [o] first, if at all. *)
Definition promise_of (o : option JSValue) : PromiseState :=
  match o with
  | Some value => Fulfilled value
  | None => Pending
  end.

(** The value of the first [deferred.resolve(value)] that a trace records
    for the deferred [d]. *)
Fixpoint first_resolution (d : nat) (tr : list Event) : option JSValue :=
  match tr with
  | [] => None
  | EvResolve d' value :: tr =>
      if decide (d' = d) then Some value else first_resolution d tr
  | _ :: tr => first_resolution d tr
  end.

(** What holds of the message bridge in every world of a runner: there are
    as many deferreds as identifiers were issued; the mapping holds every
    identifier issued so far, each with the deferred made for it; and a
    promise is in the state its first resolution left it in. *)
Record bridge_inv {Engine : Type} (w : World Engine) : Prop := MkBridgeInv {
  inv_count : messageCount w = Z.of_nat (length (promises w));
  inv_entries : forall id,
    messageResponsePromises w !! id
    = if decide (0 <= id < messageCount w) then Some (Z.to_nat id) else None;
  inv_promises : forall d,
    (d < length (promises w))%nat ->
    promises w !! d = Some (promise_of (first_resolution d (trace w)));
  inv_unresolved : forall d,
    (length (promises w) <= d)%nat -> first_resolution d (trace w) = None
}.

(** The world a call leaves, [w] when the call does not end. *)
Definition world_of {Engine A : Type}
    (r : option (Completion A * World Engine)) (w : World Engine)
  : World Engine :=
  match r with
  | Some (_, w') => w'
  | None => w
  end.

(** A kernel that takes no message: its run queue is empty and
    [deliverInbound] throws. *)
#[export] Instance closed : Controller unit :=
  {| step _ := MkKernelCall (Returned 0) [] tt;
     deliverInbound _ _ _ := MkKernelCall (Threw (VStr "closed")) [] tt |}.

(** ** Worlds in time

    [follows w w']: [w'] is a later world than [w], as far as the message
    bridge goes. The trace has grown; the counter has not gone down; the
    entries of the identifiers below the counter, the deferreds and the
    promises that are settled are what they were; the identifiers issued
    meanwhile are the values the counter went through; and no warning was
    given about an identifier that had its entry. *)

Record follows {Engine : Type} (w w' : World Engine) : Prop := MkFollows {
  follows_trace : trace w' = trace w ++ since w w';
  follows_count : messageCount w <= messageCount w';
  follows_entries : forall id,
    id < messageCount w ->
    messageResponsePromises w' !! id = messageResponsePromises w !! id;
  follows_heap : (length (promises w) <= length (promises w'))%nat;
  follows_settled : forall d value,
    promises w !! d = Some (Fulfilled value) ->
    promises w' !! d = Some (Fulfilled value);
  follows_issued :
    issued (since w w') = seqZ (messageCount w) (messageCount w' - messageCount w);
  follows_warnings : forall id,
    id < messageCount w -> is_Some (messageResponsePromises w !! id) ->
    id ∉ warnings (since w w')
}.

(** * Properties *)

(** ** Traces *)

Section Traces.

Lemma units_app (a b : list Event) : units (a ++ b) = units a + units b.
Proof. induction a as [|[] a IH]; simpl; lia. Qed.

Lemma attempts_app (a b : list Event) :
  attempts (a ++ b) = (attempts a + attempts b)%nat.
Proof. induction a as [|[] a IH]; simpl; lia. Qed.

Lemma issued_app (a b : list Event) : issued (a ++ b) = issued a ++ issued b.
Proof. induction a as [|[] a IH]; simpl; congruence. Qed.

Lemma warnings_app (a b : list Event) :
  warnings (a ++ b) = warnings a ++ warnings b.
Proof. induction a as [|[] a IH]; simpl; congruence. Qed.

Lemma committed_app (a b : list Event) (pending : Z) :
  EvCommit ∉ a ->
  committed pending (a ++ b) = committed (pending + units a) b.
Proof.
  revert pending. induction a as [|ev a IH]; intros pending Hno; simpl.
  - f_equal. lia.
  - assert (EvCommit ∉ a) by (intros ?; apply Hno; by right).
    destruct ev; try (rewrite IH by done; f_equal; lia).
    exfalso. apply Hno. by left.
Qed.

Lemma bridge_events_units (a : list Event) :
  Forall bridge_event a -> units a = 0.
Proof. induction 1 as [|[] a Hev _ IH]; simpl in *; done. Qed.

Lemma bridge_events_attempts (a : list Event) :
  Forall bridge_event a -> attempts a = O.
Proof. induction 1 as [|[] a Hev _ IH]; simpl in *; done. Qed.

Lemma bridge_events_issued (a : list Event) :
  Forall bridge_event a -> issued a = [].
Proof. induction 1 as [|[] a Hev _ IH]; simpl in *; done. Qed.

Lemma bridge_events_pure (a : list Event) (ev : Event) :
  Forall bridge_event a -> ~ bridge_event ev -> ev ∉ a.
Proof.
  intros Ha Hev Hin. rewrite Forall_forall in Ha. apply Hev, Ha, Hin.
Qed.

Lemma since_extension {Engine : Type} (w w' : World Engine) (added : list Event) :
  trace w' = trace w ++ added -> since w w' = added.
Proof. intros H. unfold since. rewrite H. by rewrite drop_app_length. Qed.

Lemma since_self {Engine : Type} (w : World Engine) : since w w = [].
Proof. apply since_extension. by rewrite app_nil_r. Qed.

End Traces.

(** ** The order of worlds *)

Section Follows.
Context {Engine : Type} {kernel : Controller Engine}.
Implicit Types (w : World Engine) (added : list Event).

Lemma follows_by w w' added :
  trace w' = trace w ++ added ->
  messageCount w <= messageCount w' ->
  (forall id, id < messageCount w ->
     messageResponsePromises w' !! id = messageResponsePromises w !! id) ->
  (length (promises w) <= length (promises w'))%nat ->
  (forall d value, promises w !! d = Some (Fulfilled value) ->
     promises w' !! d = Some (Fulfilled value)) ->
  issued added = seqZ (messageCount w) (messageCount w' - messageCount w) ->
  (forall id, id < messageCount w ->
     is_Some (messageResponsePromises w !! id) -> id ∉ warnings added) ->
  follows w w'.
Proof.
  intros Htr; intros.
  pose proof (since_extension _ _ _ Htr) as Hs. subst added.
  by constructor.
Qed.

Lemma follows_refl w : follows w w.
Proof.
  apply (follows_by _ _ []); try done.
  - by rewrite app_nil_r.
  - by rewrite seqZ_nil by lia.
  - intros id _ _. simpl. apply not_elem_of_nil.
Qed.

Lemma follows_trans w1 w2 w3 : follows w1 w2 -> follows w2 w3 -> follows w1 w3.
Proof.
  intros [T1 C1 E1 H1 S1 I1 W1] [T2 C2 E2 H2 S2 I2 W2].
  apply (follows_by _ _ (since w1 w2 ++ since w2 w3)).
  - by rewrite T2, T1, app_assoc.
  - lia.
  - intros id Hid. rewrite E2 by lia. by apply E1.
  - lia.
  - intros d value Hd. by apply S2, S1.
  - rewrite issued_app, I1, I2.
    replace (messageCount w3 - messageCount w1)
      with ((messageCount w2 - messageCount w1)
            + (messageCount w3 - messageCount w2)) by lia.
    rewrite seqZ_app by lia. do 2 f_equal. lia.
  - intros id Hid Hsome. rewrite warnings_app, elem_of_app.
    intros [Hin|Hin]; [by apply (W1 id)|].
    apply (W2 id); [lia| |done]. by rewrite E1.
Qed.

End Follows.

(** ** The outbound bridge callback *)

Section Bridge.
Context {Engine : Type} {kernel : Controller Engine}.
Implicit Types (w : World Engine).

Lemma settle_settled (value first : JSValue) (ps : list PromiseState) (d d' : nat) :
  ps !! d' = Some (Fulfilled first) ->
  alter (settle value) d ps !! d' = Some (Fulfilled first).
Proof.
  intros Hd'. destruct (decide (d = d')) as [->|Hne].
  - by rewrite list_lookup_alter_eq, Hd'.
  - by rewrite list_lookup_alter_ne.
Qed.

(** The callback touches the promises and the trace, and nothing else. *)
Lemma doOutboundBridge_frame msgId value w :
  exists ev ps,
    bridge_event ev /\
    doOutboundBridge msgId value w
    = MkWorld (controller w) (durable w) (crankNumber w) (messageCount w)
              (messageResponsePromises w) ps (trace w ++ [ev]).
Proof.
  unfold doOutboundBridge.
  destruct (messageResponsePromises w !! msgId) as [d|].
  - by exists (EvResolve d value), (alter (settle value) d (promises w)).
  - by exists (EvWarn msgId), (promises w).
Qed.

Lemma doOutboundBridge_follows msgId value w :
  follows w (doOutboundBridge msgId value w).
Proof.
  unfold doOutboundBridge.
  destruct (messageResponsePromises w !! msgId) as [d|] eqn:Hd.
  - apply (follows_by _ _ [EvResolve d value]); simpl; try done.
    + by rewrite length_alter.
    + intros d' first. apply settle_settled.
    + by rewrite Z.sub_diag, seqZ_nil.
    + intros. apply not_elem_of_nil.
  - apply (follows_by _ _ [EvWarn msgId]); simpl; try done.
    + by rewrite Z.sub_diag, seqZ_nil.
    + intros id _ [d' Hd'] Hin%list_elem_of_singleton. congruence.
Qed.

Lemma callbacks_frame out w :
  exists cb ps,
    Forall bridge_event cb /\
    callbacks out w
    = MkWorld (controller w) (durable w) (crankNumber w) (messageCount w)
              (messageResponsePromises w) ps (trace w ++ cb).
Proof.
  revert w. induction out as [|[msgId value] out IH]; intros w.
  - exists [], (promises w). split; [done|]. simpl. rewrite app_nil_r.
    by destruct w.
  - destruct (doOutboundBridge_frame msgId value w) as (ev & ps & Hev & Hw).
    destruct (IH (doOutboundBridge msgId value w)) as (cb & ps' & Hcb & Hw').
    exists (ev :: cb), ps'. split; [by constructor|].
    unfold callbacks in *. simpl. rewrite Hw'. rewrite Hw. simpl.
    by rewrite <- app_assoc.
Qed.

Lemma callbacks_follows out w : follows w (callbacks out w).
Proof.
  revert w. induction out as [|[msgId value] out IH]; intros w.
  - apply follows_refl.
  - eapply follows_trans; [apply (doOutboundBridge_follows msgId value)|].
    apply IH.
Qed.

End Bridge.

(** ** Steps and blocks *)

Section Blocks.
Context {Engine : Type} {kernel : Controller Engine}.
Implicit Types (w : World Engine) (added : list Event).

(** What leaves the bridge alone and records neither an identifier nor
    a warning leads to a later world. *)
Lemma follows_untouched w w' added :
  trace w' = trace w ++ added ->
  messageCount w' = messageCount w ->
  messageResponsePromises w' = messageResponsePromises w ->
  promises w' = promises w ->
  issued added = [] -> warnings added = [] ->
  follows w w'.
Proof.
  intros Htr Hc Hm Hp Hi Hw.
  apply (follows_by _ _ added); rewrite ?Hc, ?Hm, ?Hp, ?Hw; try done.
  - by rewrite Hi, Z.sub_diag, seqZ_nil.
  - intros. apply not_elem_of_nil.
Qed.

Lemma await_step_frame w :
  exists cb ps,
    Forall bridge_event cb /\
    await_step w
    = (completion (step (controller w)),
       MkWorld (after (step (controller w))) (durable w) (crankNumber w)
               (messageCount w) (messageResponsePromises w) ps
               (trace w ++ cb ++ [step_event (completion (step (controller w)))])).
Proof.
  unfold await_step.
  destruct (callbacks_frame (outbound (step (controller w))) w)
    as (cb & ps & Hcb & ->).
  exists cb, ps. split; [done|].
  destruct (completion (step (controller w))); unfold record, set_controller;
    simpl; by rewrite <- app_assoc.
Qed.

Lemma await_step_follows w : follows w (snd (await_step w)).
Proof.
  unfold await_step.
  pose proof (callbacks_follows (outbound (step (controller w))) w) as Hcb.
  set (w1 := callbacks _ w) in *.
  eapply follows_trans; [exact Hcb|].
  destruct (completion (step (controller w))); simpl;
    by eapply follows_untouched.
Qed.

Lemma commit_follows w : follows w (commit w).
Proof. by apply (follows_untouched _ _ [EvCommit]). Qed.

Lemma add_cranks_follows n w : follows w (add_cranks n w).
Proof. apply (follows_untouched _ _ []); try done. simpl. by rewrite app_nil_r. Qed.

Lemma crank_follows w : follows w (crank w).
Proof.
  unfold crank. pose proof (await_step_follows w) as Hs.
  destruct (await_step w) as [[stepped|x] w1]; simpl in *; [|done].
  destruct (stepped <? 1); [done|].
  eapply follows_trans; [exact Hs|apply add_cranks_follows].
Qed.

(** [pre ++ ev :: post] cut where a list free of [ev] ends. *)
Lemma cut_after (pre post a b : list Event) (ev : Event) :
  pre ++ ev :: post = a ++ b -> ev ∉ a ->
  exists m, pre = a ++ m /\ b = m ++ ev :: post.
Proof.
  revert pre. induction a as [|x a IH]; intros pre Heq Hno.
  - by exists pre.
  - destruct pre as [|y pre]; simpl in Heq; injection Heq as -> Heq.
    + exfalso. apply Hno. by left.
    + destruct (IH pre Heq) as (m & -> & ->).
      * intros Hin. apply Hno. by right.
      * by exists m.
Qed.

Lemma since_chain w w1 w2 added :
  trace w1 = trace w ++ added -> trace w2 = trace w1 ++ since w1 w2 ->
  trace w2 = trace w ++ since w w2 /\ since w w2 = added ++ since w1 w2.
Proof.
  intros H1 H2.
  assert (trace w2 = trace w ++ (added ++ since w1 w2)) as Htr
    by (by rewrite H2, H1, app_assoc).
  rewrite (since_extension _ _ _ Htr). by split.
Qed.

Lemma singleton_cut (ev ev' : Event) (m post : list Event) :
  [ev'] = m ++ ev :: post -> m = [] /\ ev' = ev /\ post = [].
Proof.
  destruct m as [|x m]; simpl; intros Heq.
  - by injection Heq as -> <-.
  - injection Heq as _ Heq. by destruct m.
Qed.

(** The trace of the loop of [runBlock]: no commit, no more steps than
    asked for, and nothing after a step that threw or that reported
    less than one unit. *)
Lemma runBlock_loop_trace n actualSteps w c w' :
  runBlock_loop n actualSteps w = (c, w') ->
  trace w' = trace w ++ since w w' /\
  durable w' = durable w /\
  (EvCommit ∉ since w w') /\
  (attempts (since w w') <= n)%nat /\
  match c with
  | Threw x => exists pre, since w w' = pre ++ [EvStepThrew x]
                           /\ (forall y, EvStepThrew y ∉ pre)
  | Returned _ => forall y, EvStepThrew y ∉ since w w'
  end /\
  (forall pre s post, since w w' = pre ++ EvStep s :: post -> s < 1 -> post = []).
Proof.
  revert actualSteps w c w'.
  induction n as [|n IH]; intros actualSteps w c w' Hrun; simpl in Hrun.
  - injection Hrun as <- <-. rewrite since_self, app_nil_r.
    repeat split; try done; try apply not_elem_of_nil.
    + intros y. apply not_elem_of_nil.
    + intros pre s post Heq. by destruct pre.
  - destruct (await_step_frame w) as (cb & ps & Hcb & Hstep).
    rewrite Hstep in Hrun. set (w1 := MkWorld _ _ _ _ _ _ _) in *.
    assert (trace w1 = trace w
              ++ (cb ++ [step_event (completion (step (controller w)))]))
      as Htr1 by done.
    assert (EvCommit ∉ cb) as Hcommit
      by (apply bridge_events_pure; [done|by intros []]).
    assert (forall y, EvStepThrew y ∉ cb) as Hthrew
      by (intros y; apply bridge_events_pure; [done|by intros []]).
    assert (forall s, EvStep s ∉ cb) as Hstepped
      by (intros s; apply bridge_events_pure; [done|by intros []]).
    destruct (completion (step (controller w))) as [stepped|x]; simpl in *.
    + destruct (stepped <? 1) eqn:Hidle.
      * injection Hrun as <- <-.
        rewrite (since_extension w w1 _ Htr1). repeat split; try done.
        -- rewrite elem_of_app, list_elem_of_singleton.
           intros [Hin|?]; [done|done].
        -- rewrite attempts_app, bridge_events_attempts by done. simpl. lia.
        -- intros y. rewrite elem_of_app, list_elem_of_singleton.
           intros [Hin|?]; [by apply (Hthrew y)|done].
        -- intros pre s post Heq _. symmetry in Heq.
           destruct (cut_after _ _ _ _ _ Heq) as (m & _ & Hm);
             [apply Hstepped|].
           by apply singleton_cut in Hm as (_ & _ & ->).
      * apply IH in Hrun as (Htr & Hd & Hno & Hatt & Hc & Hlast).
        destruct (since_chain w (add_cranks stepped w1) w' _ Htr1 Htr)
          as [Htr' Hsince].
        rewrite Hsince in Htr' |- *.
        split; [done|]. split; [by rewrite Hd|]. repeat split.
        -- rewrite !elem_of_app, list_elem_of_singleton.
           intros [[Hin|?]|?]; [done|done|done].
        -- rewrite !attempts_app, bridge_events_attempts by done. simpl. lia.
        -- destruct c as [?|x].
           ++ intros y. rewrite !elem_of_app, list_elem_of_singleton.
              intros [[Hin|?]|Hin];
                [by apply (Hthrew y)|done|by apply (Hc y)].
           ++ destruct Hc as (pre & -> & Hpre).
              exists ((cb ++ [EvStep stepped]) ++ pre).
              split; [by rewrite <- !app_assoc|].
              intros y. rewrite !elem_of_app, list_elem_of_singleton.
              intros [[Hin|?]|Hin];
                [by apply (Hthrew y)|done|by apply (Hpre y)].
        -- intros pre s post Heq Hs. symmetry in Heq.
           destruct (cut_after _ _ _ _ _ Heq) as (m & _ & Hm).
           ++ rewrite elem_of_app, list_elem_of_singleton.
              intros [Hin|Hin]; [by apply (Hstepped s)|].
              injection Hin as ->. lia.
           ++ by apply (Hlast m s post).
    + injection Hrun as <- <-.
      rewrite (since_extension w w1 _ Htr1). repeat split; try done.
      * rewrite elem_of_app, list_elem_of_singleton.
        intros [Hin|?]; [done|done].
      * rewrite attempts_app, bridge_events_attempts by done. simpl. lia.
      * by exists cb.
      * intros pre s post Heq _. symmetry in Heq.
        destruct (cut_after _ _ _ _ _ Heq) as (m & _ & Hm);
          [apply Hstepped|].
        by apply singleton_cut in Hm as (_ & ? & _).
Qed.

End Blocks.

(** ** Accepting a message *)

Section Accept.
Context {Engine : Type} {kernel : Controller Engine}.
Implicit Types (w : World Engine).

Lemma accept_frame args w :
  let k := deliverInbound (messageCount w) args (controller w) in
  exists cb ps,
    Forall bridge_event cb /\
    callbacks (outbound k) (at_delivery args w)
    = MkWorld (controller w) (durable w) (crankNumber w) (messageCount w + 1)
        (<[messageCount w := length (promises w)]> (messageResponsePromises w))
        ps (trace (at_delivery args w) ++ cb) /\
    accept args w
    = (match completion k with
       | Returned _ => Returned (messageCount w, length (promises w))
       | Threw x => Threw x
       end,
       MkWorld (after k) (durable w) (crankNumber w) (messageCount w + 1)
         (<[messageCount w := length (promises w)]> (messageResponsePromises w))
         ps (trace (at_delivery args w) ++ cb ++ deliver_event (completion k))).
Proof.
  intros k.
  destruct (callbacks_frame (outbound k) (at_delivery args w))
    as (cb & ps & Hcb & Hw).
  exists cb, ps. split; [done|]. split; [done|].
  unfold accept, defer. simpl. fold k.
  replace (record (EvDeliverInbound (messageCount w) args) _)
    with (at_delivery args w)
    by (unfold at_delivery, record; simpl; by rewrite <- app_assoc).
  rewrite Hw. unfold set_controller, record. simpl.
  destruct (completion k); simpl; by rewrite ?app_nil_r, <- ?app_assoc.
Qed.

Lemma at_delivery_follows args w : follows w (at_delivery args w).
Proof.
  apply (follows_by _ _ [EvRegister (messageCount w) (length (promises w));
                         EvDeliverInbound (messageCount w) args]);
    simpl; try done.
  - lia.
  - intros id Hid. apply lookup_insert_ne. lia.
  - rewrite length_app. lia.
  - intros d value Hd. by apply lookup_app_l_Some.
  - replace (messageCount w + 1 - messageCount w) with 1 by lia.
    by rewrite seqZ_cons, seqZ_nil by lia.
  - intros. apply not_elem_of_nil.
Qed.

Lemma accept_follows_delivery args w :
  follows (at_delivery args w) (snd (accept args w)).
Proof.
  destruct (accept_frame args w) as (cb & ps & Hcb & Hw & ->). simpl.
  eapply follows_trans;
    [apply (callbacks_follows
              (outbound (deliverInbound (messageCount w) args (controller w))))|].
  rewrite Hw.
  apply (follows_untouched _ _
           (deliver_event (completion
              (deliverInbound (messageCount w) args (controller w)))));
    simpl; try done.
  - by rewrite app_assoc.
  - by destruct (completion _).
  - by destruct (completion _).
Qed.

Lemma accept_follows args w : follows w (snd (accept args w)).
Proof.
  eapply follows_trans;
    [apply at_delivery_follows|apply accept_follows_delivery].
Qed.

Lemma exec_follows a w : follows w (exec a w).
Proof.
  destruct a as [args| | |msgId value]; simpl.
  - apply accept_follows.
  - apply crank_follows.
  - apply commit_follows.
  - apply doOutboundBridge_follows.
Qed.

Lemma execs_follows acts w : follows w (execs acts w).
Proof.
  revert w. induction acts as [|a acts IH]; intros w.
  - apply follows_refl.
  - eapply follows_trans; [apply (exec_follows a)|apply IH].
Qed.

Lemma execs_app acts acts' w :
  execs (acts ++ acts') w = execs acts' (execs acts w).
Proof. apply fold_left_app. Qed.

End Accept.

(** ** The calls as interleavings

    Whatever [runBlock], [runBatch] and [handleMessage] do to the world, a
    list of actions does. *)

Section Actions.
Context {Engine : Type} {kernel : Controller Engine} {options : Options}.
Implicit Types (w : World Engine).

Lemma runBlock_loop_actions n actualSteps w :
  exists m, (m <= n)%nat /\
    snd (runBlock_loop n actualSteps w) = execs (replicate m ActCrank) w.
Proof.
  revert actualSteps w. induction n as [|n IH]; intros actualSteps w.
  - by exists O.
  - simpl. destruct (await_step w) as [[stepped|x] w1] eqn:Hstep.
    + destruct (stepped <? 1) eqn:Hidle.
      * exists 1%nat. split; [lia|]. simpl. unfold crank.
        by rewrite Hstep, Hidle.
      * destruct (IH (actualSteps + stepped) (add_cranks stepped w1))
          as (m & Hm & ->).
        exists (S m). split; [lia|]. simpl. unfold crank.
        by rewrite Hstep, Hidle.
    + exists 1%nat. split; [lia|]. simpl. unfold crank. by rewrite Hstep.
Qed.

Lemma runBlock_actions requestedSteps doCommit w :
  exists acts, Forall kernel_action acts /\
    snd (runBlock requestedSteps doCommit w) = execs acts w.
Proof.
  unfold runBlock.
  destruct (runBlock_loop_actions (Z.to_nat requestedSteps) 0 w)
    as (m & _ & Hloop).
  assert (Forall kernel_action (replicate m ActCrank)) as Hcranks
    by (apply Forall_replicate; by left).
  destruct (runBlock_loop _ 0 w) as [[actualSteps|x] w1]; simpl in *.
  - destruct doCommit.
    + exists (replicate m ActCrank ++ [ActCommit]). split.
      * apply Forall_app. split; [done|]. constructor; [by right|done].
      * by rewrite execs_app, <- Hloop.
    + by exists (replicate m ActCrank).
  - by exists (replicate m ActCrank).
Qed.

Lemma runBatch_loop_actions fuel doCommit runAll stepLimit totalSteps w c w' :
  runBatch_loop fuel doCommit runAll stepLimit totalSteps w = Some (c, w') ->
  exists acts, Forall kernel_action acts /\ w' = execs acts w.
Proof.
  revert stepLimit totalSteps w.
  induction fuel as [|fuel IH]; intros stepLimit totalSteps w Hrun; [done|].
  simpl in Hrun.
  destruct (runBlock_actions blockSize doCommit w) as (acts & Hacts & Hblock).
  destruct (runBlock blockSize doCommit w) as [[steps|x] w1]; simpl in *.
  - destruct (_ && _).
    + apply IH in Hrun as (acts' & Hacts' & ->). exists (acts ++ acts').
      split; [by apply Forall_app|]. by rewrite execs_app, Hblock.
    + injection Hrun as _ <-. by exists acts.
  - injection Hrun as _ <-. by exists acts.
Qed.

Lemma handleMessage_actions fuel args w c w' :
  handleMessage fuel args w = Some (c, w') ->
  exists acts, Forall kernel_action acts /\
    w' = execs (ActAccept args :: acts) w.
Proof.
  unfold handleMessage. simpl.
  destruct (accept args w) as [[[messageId deferred]|x] w1]; simpl.
  - unfold runBatch.
    destruct (runBatch_loop _ _ _ _ _ w1) as [[[totalSteps|x] w2]|] eqn:Hrun;
      [| |done]; intros [= _ <-];
      apply runBatch_loop_actions in Hrun as (acts & Hacts & ->);
      by exists acts.
  - intros [= _ <-]. by exists [].
Qed.

(** Blocks and batches leave the message bridge to the callbacks: they
    neither issue an identifier nor touch the mapping. *)
Lemma kernel_actions_frame acts w :
  Forall kernel_action acts ->
  messageCount (execs acts w) = messageCount w /\
  messageResponsePromises (execs acts w) = messageResponsePromises w.
Proof.
  intros Hacts. revert w.
  induction Hacts as [|a acts [-> | ->] _ IH]; intros w; [done| |]; simpl.
  - destruct (IH (crank w)) as [-> ->]. unfold crank.
    destruct (await_step_frame w) as (cb & ps & _ & ->).
    destruct (completion _) as [stepped|x]; [|done].
    by destruct (stepped <? 1).
  - by destruct (IH (commit w)) as [-> ->].
Qed.

(** The runner is handed out with an empty mapping and a counter at
    [0], in a world that actions lead to. *)
Lemma createSwingsetRunner_bridge fuel e c w :
  createSwingsetRunner fuel e = Some (c, w) ->
  messageCount w = 0 /\ messageResponsePromises w = ∅ /\
  exists acts, w = execs acts (fresh e).
Proof.
  unfold createSwingsetRunner, runBatch.
  destruct (runBatch_loop _ _ _ _ _ (fresh e)) as [[[totalSteps|x] w1]|] eqn:Hrun;
    [| |done]; intros [= _ <-];
    apply runBatch_loop_actions in Hrun as (acts & Hacts & ->);
    destruct (kernel_actions_frame acts (fresh e) Hacts) as [-> ->];
    (split; [done|]; split; [done|]; by exists acts).
Qed.

Lemma runBlock_follows requestedSteps doCommit w :
  follows w (snd (runBlock requestedSteps doCommit w)).
Proof.
  destruct (runBlock_actions requestedSteps doCommit w) as (acts & _ & ->).
  apply execs_follows.
Qed.

End Actions.

(** ** The message bridge *)

Section MessageBridge.
Context {Engine : Type} {kernel : Controller Engine}.
Implicit Types (w : World Engine).

Lemma seqZ_sorted (m n : Z) : StronglySorted Z.lt (seqZ m n).
Proof.
  destruct (decide (n <= 0)) as [Hn|Hn]; [rewrite seqZ_nil by done; constructor|].
  rewrite <- (Z2Nat.id n) by lia. generalize (Z.to_nat n) as k. clear.
  intros k. revert m. induction k as [|k IH]; intros m.
  - rewrite seqZ_nil by done. constructor.
  - rewrite seqZ_cons by lia.
    replace (Z.pred (Z.of_nat (S k))) with (Z.of_nat k) by lia.
    constructor; [apply IH|]. apply Forall_seqZ. lia.
Qed.

(** After [accept] the entry of the new identifier is there to stay. *)
Lemma accepted_entry args w w' :
  follows (at_delivery args w) w' ->
  messageResponsePromises w' !! messageCount w = Some (length (promises w)) /\
  messageCount w < messageCount w' /\
  (length (promises w) < length (promises w'))%nat.
Proof.
  intros Hf. split; [|split].
  - rewrite (follows_entries _ _ Hf) by (simpl; lia). apply lookup_insert_eq.
  - pose proof (follows_count _ _ Hf). simpl in *. lia.
  - pose proof (follows_heap _ _ Hf) as Hh. simpl in Hh.
    rewrite length_app in Hh. simpl in Hh. lia.
Qed.

Lemma alter_settled (value first : JSValue) (ps : list PromiseState) (d : nat) :
  ps !! d = Some (Fulfilled first) -> alter (settle value) d ps = ps.
Proof.
  intros Hd. apply list_eq. intros j. destruct (decide (d = j)) as [<-|Hne].
  - by rewrite list_lookup_alter_eq, Hd.
  - by rewrite list_lookup_alter_ne.
Qed.

Lemma settled_Some d w value :
  settled d w = Some value <-> promises w !! d = Some (Fulfilled value).
Proof.
  unfold settled. destruct (promises w !! d) as [[|first]|]; naive_solver.
Qed.

Lemma doOutboundBridge_found msgId value w d :
  messageResponsePromises w !! msgId = Some d ->
  doOutboundBridge msgId value w = resolve d value w.
Proof. unfold doOutboundBridge. by intros ->. Qed.

End MessageBridge.

(** ** What the design says of the message bridge *)

Section BridgeDesign.
Context {Engine : Type} {kernel : Controller Engine}.
Implicit Types (w : World Engine).

(** C2, as the code has it. The outbound callback resolves the deferred
    of an identifier that has an entry and leaves the mapping as it is:
    the identifier is still there after its resolution, and whatever
    runs later keeps it there. *)
Theorem resolved_entry_stays w msgId d value acts :
  messageResponsePromises w !! msgId = Some d ->
  since w (doOutboundBridge msgId value w) = [EvResolve d value] /\
  messageResponsePromises (doOutboundBridge msgId value w)
  = messageResponsePromises w /\
  is_Some (messageResponsePromises
             (execs acts (doOutboundBridge msgId value w)) !! msgId).
Proof.
  intros Hd. rewrite (doOutboundBridge_found _ _ _ _ Hd).
  split; [by apply since_extension|]. split; [done|].
  assert (is_Some (messageResponsePromises (resolve d value w) !! msgId))
    as Hsome by (by exists d).
  revert Hsome. generalize (resolve d value w). clear.
  induction acts as [|a acts IH]; intros w Hsome; [done|].
  simpl. apply IH. destruct a as [args| | |msgId' value']; simpl.
  - destruct (accept_frame args w) as (cb & ps & _ & _ & ->). simpl.
    rewrite lookup_insert. by case_decide.
  - unfold crank.
    destruct (await_step_frame w) as (cb & ps & _ & ->).
    destruct (completion _) as [stepped|x]; [|done].
    by destruct (stepped <? 1).
  - done.
  - destruct (doOutboundBridge_frame msgId' value' w) as (ev & ps & _ & ->).
    done.
Qed.

(** C3, as the code has it. A message is accepted and its deferred is
    resolved by a first call of the outbound callback. A second call
    with the same identifier, whatever ran in between, finds the entry
    again: it warns of nothing, it calls [resolve] once more, and that
    changes no promise, so that the caller of [handleMessage] gets the
    value of the first call. *)
Theorem second_resolution_changes_nothing w args acts1 v1 acts2 v2 :
  settled (length (promises w)) (execs acts1 (snd (accept args w))) = None ->
  let id := messageCount w in
  let d := length (promises w) in
  let w2 := doOutboundBridge id v1 (execs acts1 (snd (accept args w))) in
  let w3 := execs acts2 w2 in
  let w4 := doOutboundBridge id v2 w3 in
  settled d w2 = Some v1 /\
  since w3 w4 = [EvResolve d v2] /\
  warnings (since w3 w4) = [] /\
  promises w4 = promises w3 /\
  settled d w4 = Some v1.
Proof.
  intros Hpending id d w2 w3 w4.
  set (w1 := execs acts1 (snd (accept args w))) in *.
  assert (follows (at_delivery args w) w1) as Hf1.
  { eapply follows_trans; [apply accept_follows_delivery|apply execs_follows]. }
  clearbody w1.
  assert (follows w1 w2) as Hf2 by apply doOutboundBridge_follows.
  assert (follows w2 w3) as Hf3 by apply execs_follows.
  destruct (accepted_entry _ _ _ Hf1) as (Hentry1 & _ & Hheap1).
  assert (promises w1 !! d = Some Pending) as Hd1.
  { destruct (lookup_lt_is_Some_2 (promises w1) d Hheap1) as [p Hp].
    unfold settled in Hpending. fold d in Hpending. rewrite Hp in Hpending.
    by destruct p. }
  assert (settled d w2 = Some v1) as Hs2.
  { apply settled_Some. unfold w2.
    rewrite (doOutboundBridge_found _ _ _ _ Hentry1). simpl. fold d.
    by rewrite list_lookup_alter_eq, Hd1. }
  assert (promises w3 !! d = Some (Fulfilled v1)) as Hd3.
  { apply (follows_settled _ _ Hf3). by apply settled_Some. }
  assert (messageResponsePromises w3 !! id = Some d) as Hentry3.
  { apply (accepted_entry args w).
    eapply follows_trans; [exact Hf1|]. by eapply follows_trans. }
  unfold w4. rewrite (doOutboundBridge_found _ _ _ _ Hentry3).
  assert (since w3 (resolve d v2 w3) = [EvResolve d v2]) as ->
    by (by apply since_extension).
  repeat split; try done.
  - simpl. by eapply alter_settled.
  - apply settled_Some. simpl. by erewrite alter_settled.
Qed.

(** C5. Over any run of the runner, the identifiers that
    [handleMessage] issues are the values its counter goes through, one
    after the other: they increase strictly and none comes twice,
    whatever was resolved meanwhile. *)
Theorem correlation_ids_increase w acts :
  issued (since w (execs acts w))
  = seqZ (messageCount w) (messageCount (execs acts w) - messageCount w) /\
  StronglySorted Z.lt (issued (since w (execs acts w))) /\
  NoDup (issued (since w (execs acts w))).
Proof.
  rewrite (follows_issued _ _ (execs_follows acts w)).
  split; [done|]. split; [apply seqZ_sorted|apply NoDup_seqZ].
Qed.

(** C9. [handleMessage] enters the deferred of its new identifier in
    the mapping and then calls [deliverInbound]: the entry is there in
    the world in which the message is delivered. From then on, whatever
    runs, the entry is there, no warning is given about the identifier,
    and the outbound callback called with it resolves the deferred. *)
Theorem issued_id_is_found w args acts value :
  let id := messageCount w in
  let d := length (promises w) in
  let w1 := snd (accept args w) in
  let w2 := execs acts w1 in
  messageResponsePromises (at_delivery args w) !! id = Some d /\
  (exists rest,
     since w w1 = EvRegister id d :: EvDeliverInbound id args :: rest /\
     id ∉ warnings rest) /\
  messageResponsePromises w2 !! id = Some d /\
  (id ∉ warnings (since w1 w2)) /\
  since w2 (doOutboundBridge id value w2) = [EvResolve d value].
Proof.
  intros id d w1 w2.
  pose proof (accept_follows_delivery args w) as Hf1. fold w1 in Hf1.
  assert (follows w1 w2) as Hf2 by apply execs_follows.
  assert (follows (at_delivery args w) (at_delivery args w)) as Hf0
    by apply follows_refl.
  destruct (accepted_entry _ _ _ Hf0) as (Hentry0 & Hcount0 & _).
  destruct (accepted_entry _ _ _ Hf1) as (Hentry1 & Hcount1 & _).
  destruct (accepted_entry _ _ _ (follows_trans _ _ _ Hf1 Hf2))
    as (Hentry2 & _ & _).
  split; [done|]. split; [|split; [done|split]].
  - exists (since (at_delivery args w) w1). split.
    + by destruct (since_chain w (at_delivery args w) w1 _ eq_refl
                     (follows_trace _ _ Hf1)) as [_ ->].
    + apply (follows_warnings _ _ Hf1); [done|by exists d].
  - apply (follows_warnings _ _ Hf2); [done|by exists d].
  - rewrite (doOutboundBridge_found _ _ _ _ Hentry2).
    by apply since_extension.
Qed.

End BridgeDesign.

(** ** The outbound callback, whatever it is given *)

Module AnyIdentifierProperties.

(** The digits that a number leaves before a text do not change how the
    text ends. *)
Lemma pretty_N_go_last (x : N) (s : string) :
  s <> EmptyString ->
  AnyIdentifier.last_character (pretty_N_go x s)
  = AnyIdentifier.last_character s.
Proof.
  revert s. induction (N.lt_wf_0 x) as [x _ IH]; intros s Hs.
  assert (x = 0 \/ 0 < x)%N as [->|Hx] by lia.
  - by rewrite pretty_N_go_0.
  - rewrite pretty_N_go_step by done.
    rewrite IH; [|by apply N.div_lt|done].
    simpl. by destruct s.
Qed.

(** A numeral ends with a digit. *)
Lemma numeral_last (n : Z) :
  exists d,
    AnyIdentifier.last_character (pretty n) = Some (pretty_N_char d).
Proof.
  assert (forall p : positive,
            exists d, AnyIdentifier.last_character (pretty (Npos p))
                      = Some (pretty_N_char d)) as Hpos.
  { intros p. unfold pretty, pretty_N. rewrite decide_False by done.
    rewrite pretty_N_go_step by lia. rewrite pretty_N_go_last by done.
    by eexists. }
  destruct n as [|p|p].
  - by exists 0%N.
  - apply Hpos.
  - destruct (Hpos p) as [d Hd]. exists d.
    change (pretty (Z.neg p)) with ("-" +:+ pretty (Npos p))%string.
    cbn [String.append AnyIdentifier.last_character].
    destruct (pretty (N.pos p)); [done|exact Hd].
Qed.

(** No numeral is the name of a property of [Object.prototype]. *)
Lemma numeral_not_member (n : Z) :
  pretty n ∉ AnyIdentifier.objectPrototype.
Proof.
  intros Hin. destruct (numeral_last n) as [d Hd].
  unfold AnyIdentifier.objectPrototype in Hin.
  repeat (apply elem_of_cons in Hin as [Heq|Hin];
          [rewrite Heq in Hd; simpl in Hd; injection Hd as Hd;
           unfold pretty_N_char in Hd; by repeat case_match|]).
  by apply elem_of_nil in Hin.
Qed.

Section Outbound.
Context {Engine : Type}.
Variable ToString : nat -> string.
Implicit Types (w : World Engine).

(** The object has an identifier under its numeral. *)
Lemma own_numeral w (id : Z) :
  AnyIdentifier.own_properties w !! pretty id
  = messageResponsePromises w !! id.
Proof.
  unfold AnyIdentifier.own_properties. rewrite lookup_kmap; [done|apply _].
Qed.

(** The object has nothing of its own under a name of
    [Object.prototype], whatever was registered. *)
Lemma member_not_own w name :
  name ∈ AnyIdentifier.objectPrototype ->
  AnyIdentifier.own_properties w !! name = None.
Proof.
  intros Hin. apply lookup_kmap_None; [apply _|].
  intros id ->. by destruct (numeral_not_member id).
Qed.

(** Given a number, the callback does what the runner's definitions say:
    it resolves the entry of the number, and warns when there is none. *)
Lemma outbound_number w (id : Z) value :
  AnyIdentifier.doOutboundBridge ToString (VNum id) value w
  = match messageResponsePromises w !! id with
    | Some _ => AnyIdentifier.Resolved (doOutboundBridge id value w)
    | None => AnyIdentifier.Warned (VNum id)
    end.
Proof.
  unfold AnyIdentifier.doOutboundBridge, AnyIdentifier.get, doOutboundBridge.
  simpl. rewrite own_numeral.
  destruct (messageResponsePromises w !! id); [done|].
  rewrite decide_False; [done|apply numeral_not_member].
Qed.

(** Given a value under whose key nothing is registered and which is no
    name of [Object.prototype], the callback warns and returns. *)
Lemma outbound_missing_warns w msgId value :
  AnyIdentifier.own_properties w
    !! AnyIdentifier.property_key ToString msgId = None ->
  AnyIdentifier.property_key ToString msgId
    ∉ AnyIdentifier.objectPrototype ->
  AnyIdentifier.doOutboundBridge ToString msgId value w
  = AnyIdentifier.Warned msgId.
Proof.
  intros Hown Hmember.
  unfold AnyIdentifier.doOutboundBridge, AnyIdentifier.get.
  by rewrite Hown, decide_False.
Qed.

(** C7. The claim fails on the code. Called with a value that is the
    name of a property of [Object.prototype], such as ['constructor'],
    the outbound callback finds no entry registered under it, in no world
    and whatever was registered, for the entries are under numerals; yet
    it does not warn and return: the plain object reads as the inherited
    member, which is truthy, and calling its [resolve] throws a
    [TypeError] into the kernel that called. *)
Theorem outbound_inherited_name_throws w msgId value :
  AnyIdentifier.property_key ToString msgId
    ∈ AnyIdentifier.objectPrototype ->
  AnyIdentifier.own_properties w
    !! AnyIdentifier.property_key ToString msgId = None /\
  AnyIdentifier.doOutboundBridge ToString msgId value w
  = AnyIdentifier.ThrewTypeError /\
  AnyIdentifier.doOutboundBridge ToString msgId value w
  <> AnyIdentifier.Warned msgId.
Proof.
  intros Hmember. pose proof (member_not_own w _ Hmember) as Hown.
  split; [done|].
  unfold AnyIdentifier.doOutboundBridge, AnyIdentifier.get.
  by rewrite Hown, decide_True.
Qed.

End Outbound.

End AnyIdentifierProperties.

(** The message bridge on the scripted kernel: a message is accepted by a
    fresh runner whose run queue is empty. *)

(** A message was accepted: a callback for ['constructor'] throws. *)
Lemma outbound_inherited_name_throws_witness :
  AnyIdentifier.property_key (fun _ => "[object Object]"%string)
    (VStr "constructor") ∈ AnyIdentifier.objectPrototype /\
  AnyIdentifier.doOutboundBridge (fun _ => "[object Object]"%string)
    (VStr "constructor") (VNum 1) (snd (accept [VNum 7] (fresh (idle 0))))
  = AnyIdentifier.ThrewTypeError.
Proof.
  assert (AnyIdentifier.property_key (fun _ => "[object Object]"%string)
            (VStr "constructor") ∈ AnyIdentifier.objectPrototype)
    as Hmember by (by left).
  split; [exact Hmember|].
  exact (proj1 (proj2 (AnyIdentifierProperties.outbound_inherited_name_throws
                         (fun _ => "[object Object]"%string)
                         (snd (accept [VNum 7] (fresh (idle 0))))
                         (VStr "constructor") (VNum 1) Hmember))).
Defined.

(** C2, as the design states it, fails: the identifier [0] is resolved and
    is still in the mapping. *)
Lemma resolved_entry_removed_counterexample :
  settled 0 (doOutboundBridge 0 (VNum 7)
               (snd (accept [VNum 7] (fresh (idle 0))))) = Some (VNum 7) /\
  ~ (messageResponsePromises
       (doOutboundBridge 0 (VNum 7)
          (snd (accept [VNum 7] (fresh (idle 0))))) !! 0 = None).
Proof. split; [reflexivity|]. vm_compute. discriminate. Qed.

(** The entry of [0] outlives its resolution, a crank, another message
    and a commit. *)
Lemma resolved_entry_stays_witness :
  messageResponsePromises (snd (accept [VNum 7] (fresh (idle 0)))) !! 0
  = Some 0%nat /\
  is_Some (messageResponsePromises
             (execs [ActCrank; ActAccept [VNum 8]; ActCrank; ActCommit]
                (doOutboundBridge 0 (VNum 7)
                   (snd (accept [VNum 7] (fresh (idle 0)))))) !! 0).
Proof.
  split; [reflexivity|].
  apply (resolved_entry_stays (snd (accept [VNum 7] (fresh (idle 0)))) 0 0%nat
           (VNum 7) [ActCrank; ActAccept [VNum 8]; ActCrank; ActCommit]).
  reflexivity.
Defined.

(** C3, as the design states it, fails: the second call of the outbound
    callback for the identifier [0] warns of nothing. *)
Lemma second_resolution_warns_counterexample :
  settled 0 (doOutboundBridge 0 (VNum 7)
               (snd (accept [VNum 7] (fresh (idle 0))))) = Some (VNum 7) /\
  ~ (0 ∈ warnings
           (since (doOutboundBridge 0 (VNum 7)
                     (snd (accept [VNum 7] (fresh (idle 0)))))
                  (doOutboundBridge 0 (VNum 9)
                     (doOutboundBridge 0 (VNum 7)
                        (snd (accept [VNum 7] (fresh (idle 0)))))))).
Proof.
  split; [reflexivity|].
  assert (warnings
            (since (doOutboundBridge 0 (VNum 7)
                      (snd (accept [VNum 7] (fresh (idle 0)))))
                   (doOutboundBridge 0 (VNum 9)
                      (doOutboundBridge 0 (VNum 7)
                         (snd (accept [VNum 7] (fresh (idle 0)))))))
          = []) as -> by reflexivity.
  apply not_elem_of_nil.
Qed.

(** Resolved with [7] and then with [9], the promise holds [7]. *)
Lemma second_resolution_changes_nothing_witness :
  settled (length (promises (fresh (idle 0))))
    (execs [] (snd (accept [VNum 7] (fresh (idle 0))))) = None /\
  settled 0 (doOutboundBridge 0 (VNum 9)
               (execs [ActCrank]
                  (doOutboundBridge 0 (VNum 7)
                     (snd (accept [VNum 7] (fresh (idle 0)))))))
  = Some (VNum 7).
Proof.
  split; [reflexivity|].
  apply (second_resolution_changes_nothing (fresh (idle 0)) [VNum 7] []
           (VNum 7) [ActCrank] (VNum 9)).
  reflexivity.
Defined.

(** ** What the design says of a block *)

Section BlockDesign.
Context {Engine : Type} {kernel : Controller Engine}.
Implicit Types (w : World Engine).

(** On a kernel whose steps run one unit at most, the loop counts what
    the steps ran and runs no more than it was asked to. *)
Lemma runBlock_loop_units n actualSteps w c w' :
  unit_steps ->
  runBlock_loop n actualSteps w = (c, w') ->
  0 <= units (since w w') <= Z.of_nat n /\
  crankNumber w' = crankNumber w + units (since w w') /\
  (forall total, c = Returned total -> total = actualSteps + units (since w w')).
Proof.
  intros Hunit. revert actualSteps w c w'.
  induction n as [|n IH]; intros actualSteps w c w' Hrun.
  - simpl in Hrun. injection Hrun as <- <-. rewrite since_self. simpl.
    split; [lia|]. split; [lia|]. intros total [= <-]. lia.
  - simpl in Hrun. destruct (await_step_frame w) as (cb & ps & Hcb & Hstep).
    rewrite Hstep in Hrun. set (w1 := MkWorld _ _ _ _ _ _ _) in *.
    assert (trace w1 = trace w
              ++ (cb ++ [step_event (completion (step (controller w)))]))
      as Htr1 by done.
    pose proof (Hunit (controller w)) as Hstepped.
    destruct (completion (step (controller w))) as [stepped|x].
    + destruct (Hstepped stepped eq_refl) as [-> | ->]; simpl in Hrun.
      * injection Hrun as <- <-. rewrite (since_extension w w1 _ Htr1).
        rewrite units_app, bridge_events_units by done. simpl.
        split; [lia|]. split; [lia|]. intros total [= <-]. lia.
      * pose proof (runBlock_loop_trace _ _ _ _ _ Hrun) as (Htr & _).
        apply IH in Hrun as (Hbound & Hcrank & Htotal).
        destruct (since_chain w (add_cranks 1 w1) w' _ Htr1 Htr)
          as [_ Hsince].
        rewrite Hsince, !units_app, bridge_events_units by done. simpl in *.
        split; [lia|]. split; [lia|].
        intros total Hc. rewrite (Htotal total Hc). lia.
    + injection Hrun as <- <-. rewrite (since_extension w w1 _ Htr1).
      rewrite units_app, bridge_events_units by done. simpl.
      split; [lia|]. split; [lia|]. done.
Qed.

(** [pre ++ ev :: post] cut where a list free of [ev] begins. *)
Lemma cut_before (pre post a tail : list Event) (ev : Event) :
  pre ++ ev :: post = a ++ tail -> ev ∉ tail ->
  exists post', a = pre ++ ev :: post' /\ post = post' ++ tail.
Proof.
  revert a. induction pre as [|p pre IH]; intros a Heq Hno.
  - destruct a as [|x a]; simpl in Heq.
    + exfalso. apply Hno. rewrite <- Heq. by left.
    + injection Heq as <- ->. by exists a.
  - destruct a as [|x a]; simpl in Heq.
    + exfalso. apply Hno. rewrite <- Heq. right.
      apply elem_of_app. right. by left.
    + injection Heq as <- Heq. destruct (IH a Heq Hno) as (post' & -> & ->).
      by exists post'.
Qed.

(** C6. On a kernel whose steps run one unit at most, a block that is
    asked for [requestedSteps >= 0] steps runs no more units than that,
    in no more steps than that, and counts them in [crankNumber]; it
    returns the number of units it ran, unless a step threw; and a step
    that reports no unit is the last step of the block. *)
Theorem runBlock_count requestedSteps doCommit w :
  unit_steps ->
  0 <= requestedSteps ->
  0 <= units (since w (snd (runBlock requestedSteps doCommit w)))
    <= requestedSteps /\
  (attempts (since w (snd (runBlock requestedSteps doCommit w)))
   <= Z.to_nat requestedSteps)%nat /\
  crankNumber (snd (runBlock requestedSteps doCommit w))
  = crankNumber w + units (since w (snd (runBlock requestedSteps doCommit w))) /\
  match fst (runBlock requestedSteps doCommit w) with
  | Returned actualSteps =>
      actualSteps = units (since w (snd (runBlock requestedSteps doCommit w)))
  | Threw x =>
      EvStepThrew x ∈ since w (snd (runBlock requestedSteps doCommit w))
  end /\
  (forall pre post,
     since w (snd (runBlock requestedSteps doCommit w))
     = pre ++ EvStep 0 :: post ->
     attempts post = O).
Proof.
  intros Hunit Hreq. unfold runBlock.
  destruct (runBlock_loop (Z.to_nat requestedSteps) 0 w) as [c w1] eqn:Hrun.
  pose proof (runBlock_loop_trace _ _ _ _ _ Hrun)
    as (Htr & _ & _ & Hatt & Hc & Hlast).
  pose proof (runBlock_loop_units _ _ _ _ _ Hunit Hrun)
    as (Hbound & Hcrank & Htotal).
  destruct c as [actualSteps|x]; simpl.
  - assert (exists tail, trace (if doCommit then commit w1 else w1)
                         = trace w ++ (since w w1 ++ tail)
                         /\ units tail = 0 /\ attempts tail = O
                         /\ (EvStep 0 ∉ tail)
                         /\ crankNumber (if doCommit then commit w1 else w1)
                            = crankNumber w1)
      as (tail & Htr' & Hu & Ha & Hno & Hcr).
    { destruct doCommit.
      - exists [EvCommit]. simpl. rewrite Htr at 1. rewrite <- app_assoc.
        repeat split. by intros [=]%list_elem_of_singleton.
      - exists []. rewrite app_nil_r. repeat split; [done|].
        apply not_elem_of_nil. }
    rewrite (since_extension _ _ _ Htr'), units_app, attempts_app, Hu, Ha, Hcr.
    rewrite Z.add_0_r, Nat.add_0_r.
    split; [lia|]. split; [done|]. split; [done|].
    split; [rewrite (Htotal actualSteps eq_refl); lia|].
    intros pre post Heq. symmetry in Heq.
    destruct (cut_before _ _ _ _ _ Heq Hno) as (post' & Hsplit & ->).
    by rewrite (Hlast pre 0 post' Hsplit) by lia.
  - destruct Hc as (pre & Hsince & _).
    split; [lia|]. split; [done|]. split; [done|].
    split; [rewrite Hsince, elem_of_app; right; by left|].
    intros pre' post Heq. by rewrite (Hlast pre' 0 post Heq) by lia.
Qed.

(** C8. If a step of the kernel throws during a block, [runBlock] ends
    by throwing what the step threw: the step that threw is the last
    thing the block did (no step is called again), [store.commit()] is
    not called, and the stored state is what it was before the block. *)
Theorem step_failure_aborts_block requestedSteps doCommit w x :
  EvStepThrew x ∈ since w (snd (runBlock requestedSteps doCommit w)) ->
  fst (runBlock requestedSteps doCommit w) = Threw x /\
  last (since w (snd (runBlock requestedSteps doCommit w)))
  = Some (EvStepThrew x) /\
  (EvCommit ∉ since w (snd (runBlock requestedSteps doCommit w))) /\
  durable (snd (runBlock requestedSteps doCommit w)) = durable w.
Proof.
  unfold runBlock.
  destruct (runBlock_loop (Z.to_nat requestedSteps) 0 w) as [c w1] eqn:Hrun.
  pose proof (runBlock_loop_trace _ _ _ _ _ Hrun)
    as (Htr & Hd & Hno & _ & Hc & _).
  destruct c as [actualSteps|y]; simpl.
  - intros Hin. exfalso. destruct doCommit.
    + assert (trace (commit w1) = trace w ++ (since w w1 ++ [EvCommit])) as Htr'
        by (simpl; rewrite Htr at 1; by rewrite <- app_assoc).
      rewrite (since_extension _ _ _ Htr'), elem_of_app in Hin.
      destruct Hin as [Hin|Hin%list_elem_of_singleton]; [|done].
      by apply (Hc x).
    + by apply (Hc x).
  - destruct Hc as (pre & Hsince & Hpre). rewrite Hsince.
    rewrite elem_of_app, list_elem_of_singleton.
    intros [Hin|[= ->]]; [by destruct (Hpre x)|].
    split; [done|]. split; [apply last_snoc|]. split; [|done].
    by rewrite <- Hsince.
Qed.

End BlockDesign.

(** The counting kernel runs a unit a step. *)
Lemma counting_unit_steps : unit_steps (Engine := nat).
Proof. intros [|k] stepped [= <-]; auto. Qed.

(** A block of three on a run queue of two cranks runs two units. *)
Lemma runBlock_count_witness :
  unit_steps (Engine := nat) /\ 0 <= 3 /\
  fst (runBlock 3 true (fresh 2%nat)) = Returned 2 /\
  units (since (fresh 2%nat) (snd (runBlock 3 true (fresh 2%nat)))) = 2.
Proof.
  split; [exact counting_unit_steps|]. split; [lia|].
  split; [reflexivity|].
  pose proof (runBlock_count 3 true (fresh 2%nat) counting_unit_steps
                ltac:(lia)) as (_ & _ & _ & Hcount & _).
  symmetry. exact Hcount.
Defined.

(** C6, as the design states it, fails: of a kernel whose steps report
    five units each, a block that is asked for two steps returns ten
    units, more than it was asked for. *)
Lemma runBlock_ceiling_counterexample :
  0 <= 2 /\
  fst (runBlock 2 false (fresh [(Returned 5, []); (Returned 5, [])]))
  = Returned 10 /\
  ~ (10 <= 2).
Proof. split; [lia|]. split; [reflexivity|]. lia. Qed.

(** A run queue whose second crank throws. *)
Lemma step_failure_aborts_block_witness :
  EvStepThrew (VStr "boom")
  ∈ since (fresh [(Returned 1, []); (Threw (VStr "boom"), []); (Returned 1, [])])
          (snd (runBlock 5 true
                  (fresh [(Returned 1, []); (Threw (VStr "boom"), []);
                          (Returned 1, [])]))) /\
  fst (runBlock 5 true
         (fresh [(Returned 1, []); (Threw (VStr "boom"), []); (Returned 1, [])]))
  = Threw (VStr "boom").
Proof.
  assert (EvStepThrew (VStr "boom")
          ∈ since (fresh [(Returned 1, []); (Threw (VStr "boom"), []);
                          (Returned 1, [])])
                  (snd (runBlock 5 true
                          (fresh [(Returned 1, []); (Threw (VStr "boom"), []);
                                  (Returned 1, [])])))) as Hin.
  { assert (since (fresh [(Returned 1, []); (Threw (VStr "boom"), []);
                          (Returned 1, [])])
                  (snd (runBlock 5 true
                          (fresh [(Returned 1, []); (Threw (VStr "boom"), []);
                                  (Returned 1, [])])))
            = [EvStep 1; EvStepThrew (VStr "boom")]) as -> by reflexivity.
    right. left. }
  split; [exact Hin|].
  exact (proj1 (step_failure_aborts_block 5 true _ _ Hin)).
Defined.

(** ** What the design says of a batch *)

Section BatchDesign.
Context {Engine : Type} {kernel : Controller Engine} {options : Options}.
Implicit Types (w : World Engine).

(** The loop of a block on a run queue of [k] cranks: it runs [n] of
    them, or all of them and one empty step. *)
Lemma runBlock_loop_queue n k actualSteps w :
  queue_holds k (controller w) ->
  exists w',
    runBlock_loop n actualSteps w
    = (Returned (actualSteps + Z.of_nat (n `min` k)), w') /\
    units (since w w') = Z.of_nat (n `min` k) /\
    crankNumber w' = crankNumber w + Z.of_nat (n `min` k) /\
    ((n <= k)%nat -> queue_holds (k - n) (controller w')).
Proof.
  revert k actualSteps w. induction n as [|n IH]; intros k actualSteps w Hq.
  - exists w. simpl. rewrite since_self, Nat.sub_0_r, !Z.add_0_r. done.
  - simpl. destruct (await_step_frame w) as (cb & ps & Hcb & Hstep).
    rewrite Hstep. set (w1 := MkWorld _ _ _ _ _ _ _) in *.
    assert (trace w1 = trace w
              ++ (cb ++ [step_event (completion (step (controller w)))]))
      as Htr1 by done.
    destruct k as [|k]; simpl in Hq.
    + rewrite Hq in *. simpl. exists w1.
      rewrite (since_extension w w1 _ Htr1), units_app,
        bridge_events_units by done.
      simpl. rewrite !Z.add_0_r. repeat split; try done. lia.
    + destruct Hq as [Hone Hq]. rewrite Hone in *. simpl.
      destruct (IH k (actualSteps + 1) (add_cranks 1 w1) Hq)
        as (w' & Hrun & Hunits & Hcrank & Hrest).
      exists w'. rewrite Hrun.
      pose proof (runBlock_loop_trace _ _ _ _ _ Hrun) as (Htr & _).
      destruct (since_chain w (add_cranks 1 w1) w' _ Htr1 Htr) as [_ ->].
      rewrite !units_app, bridge_events_units, Hunits, Hcrank by done.
      simpl. repeat split.
      * do 2 f_equal. lia.
      * lia.
      * lia.
      * intros Hle. apply Hrest. lia.
Qed.

(** A block that commits, on a run queue of [k] cranks. *)
Lemma runBlock_queue k w :
  0 < blockSize ->
  queue_holds k (controller w) ->
  exists w' steps,
    runBlock blockSize true w = (Returned steps, w') /\
    steps = blockSize `min` Z.of_nat k /\
    trace w' = trace w ++ since w w' /\
    units (since w w') = steps /\
    (forall rest,
       committed 0 (since w w' ++ rest) = steps :: committed 0 rest) /\
    crankNumber w' = crankNumber w + steps /\
    (blockSize <= Z.of_nat k ->
     queue_holds (k - Z.to_nat blockSize) (controller w')).
Proof.
  intros Hpos Hq. unfold runBlock.
  destruct (runBlock_loop_queue (Z.to_nat blockSize) k 0 w Hq)
    as (w1 & Hrun & Hunits & Hcrank & Hrest).
  pose proof (runBlock_loop_trace _ _ _ _ _ Hrun) as (Htr & _ & Hno & _).
  rewrite Hrun. exists (commit w1), (Z.of_nat (Z.to_nat blockSize `min` k)).
  assert (trace (commit w1) = trace w ++ (since w w1 ++ [EvCommit])) as Htr'
    by (simpl; rewrite Htr at 1; by rewrite <- app_assoc).
  rewrite (since_extension _ _ _ Htr'), units_app.
  simpl. rewrite Hunits, Hcrank.
  repeat split; try done; try lia.
  - intros rest. rewrite <- app_assoc, committed_app by done.
    simpl. by rewrite Hunits.
  - intros Hle. apply Hrest. lia.
Qed.

(** A batch without a limit on a run queue of [k] cranks. *)
Lemma runBatch_loop_drains fuel k stepLimit totalSteps w :
  0 < blockSize ->
  queue_holds k (controller w) ->
  (k < fuel)%nat ->
  exists w',
    runBatch_loop fuel true true stepLimit totalSteps w
    = Some (Returned (totalSteps + Z.of_nat k), w') /\
    trace w' = trace w ++ since w w' /\
    units (since w w') = Z.of_nat k /\
    crankNumber w' = crankNumber w + Z.of_nat k /\
    committed 0 (since w w')
    = replicate (Z.to_nat (Z.of_nat k / blockSize)) blockSize
      ++ [Z.of_nat k mod blockSize].
Proof.
  intros Hpos. revert k stepLimit totalSteps w.
  induction fuel as [|fuel IH]; intros k stepLimit totalSteps w Hq Hfuel;
    [lia|].
  simpl.
  destruct (runBlock_queue k w Hpos Hq)
    as (w1 & steps & -> & Hsteps & Htr & Hunits & Hcommitted & Hcrank & Hrest).
  destruct (decide (blockSize <= Z.of_nat k)) as [Hle|Hgt].
  - assert (steps = blockSize) as -> by lia.
    replace (blockSize >=? blockSize) with true by lia. simpl.
    destruct (IH (k - Z.to_nat blockSize)%nat (stepLimit - blockSize)
                (totalSteps + blockSize) w1 (Hrest Hle) ltac:(lia))
      as (w' & -> & Htr' & Hunits' & Hcrank' & Hcommitted').
    exists w'. destruct (since_chain w w1 w' _ Htr Htr') as [Htr'' Hsince].
    rewrite Hsince in Htr'' |- *.
    rewrite units_app, Hunits, Hunits', Hcrank', Hcrank, Hcommitted,
      Hcommitted'.
    replace (Z.of_nat (k - Z.to_nat blockSize)) with (Z.of_nat k - blockSize)
      by lia.
    assert (Z.of_nat k / blockSize = (Z.of_nat k - blockSize) / blockSize + 1)
      as ->.
    { rewrite <- (Z.div_add (Z.of_nat k - blockSize) 1 blockSize) by lia.
      f_equal. lia. }
    assert (Z.of_nat k mod blockSize = (Z.of_nat k - blockSize) mod blockSize)
      as ->.
    { rewrite <- (Z.mod_add (Z.of_nat k - blockSize) 1 blockSize) by lia.
      f_equal. lia. }
    assert (0 <= (Z.of_nat k - blockSize) / blockSize)
      by (apply Z.div_pos; lia).
    rewrite Z2Nat.inj_add by lia. rewrite Nat.add_comm. simpl.
    split; [do 3 f_equal; lia|]. split; [done|]. split; [lia|].
    split; [lia|done].
  - assert (steps = Z.of_nat k) as -> by lia.
    replace (Z.of_nat k >=? blockSize) with false by lia.
    simpl. exists w1.
    rewrite <- (app_nil_r (since w w1)) at 3. rewrite Hcommitted.
    rewrite Z.div_small, Z.mod_small by lia. done.
Qed.


Lemma ceil_div_floor (a b : Z) :
  0 <= a -> 0 < b ->
  ceil_div a b = a / b + (if decide (a mod b = 0) then 0 else 1).
Proof.
  intros Ha Hb. unfold ceil_div.
  pose proof (Z.div_mod a b ltac:(lia)) as Hdm.
  pose proof (Z.mod_pos_bound a b Hb) as Hm.
  case_decide as Hz.
  - symmetry. apply (Z.div_unique _ _ _ (b - 1)); lia.
  - symmetry. apply (Z.div_unique _ _ _ (a mod b - 1)); lia.
Qed.

(** C1, as the code has it. With a block size above zero and a run
    queue of exactly [k] cranks, [runBatch(0, true)] ends, given the
    blocks it needs; it runs the [k] cranks; and it commits
    [floor(k / blockSize) + 1] times, [blockSize] units each time but
    the last and [k mod blockSize] units the last time. That is
    [ceil(k / blockSize)] commits when [k] is not a multiple of the
    block size, and one more, of no unit, when it is: one commit of no
    unit when [k] is [0]. *)
Theorem runBatch_drains k fuel w :
  0 < blockSize ->
  queue_holds k (controller w) ->
  (k < fuel)%nat ->
  exists w',
    runBatch fuel 0 true w = Some (Returned (Z.of_nat k), w') /\
    units (since w w') = Z.of_nat k /\
    crankNumber w' = crankNumber w + Z.of_nat k /\
    committed 0 (since w w')
    = replicate (Z.to_nat (Z.of_nat k / blockSize)) blockSize
      ++ [Z.of_nat k mod blockSize] /\
    Z.of_nat (length (committed 0 (since w w')))
    = Z.of_nat k / blockSize + 1 /\
    Z.of_nat (length (committed 0 (since w w')))
    = ceil_div (Z.of_nat k) blockSize
      + (if decide (Z.of_nat k mod blockSize = 0) then 1 else 0).
Proof.
  intros Hpos Hq Hfuel. unfold runBatch. simpl.
  destruct (runBatch_loop_drains fuel k 0 0 w Hpos Hq Hfuel)
    as (w' & Hrun & _ & Hunits & Hcrank & Hcommitted).
  exists w'. rewrite Hrun, Hcommitted, length_app, length_replicate.
  assert (0 <= Z.of_nat k / blockSize) by (apply Z.div_pos; lia).
  repeat split; try done.
  - simpl. lia.
  - rewrite ceil_div_floor by lia. simpl. case_decide; lia.
Qed.


End BatchDesign.

(** The counting kernel in state [k] holds [k] cranks. *)
Lemma counting_queue_holds (k : nat) : queue_holds k k.
Proof. induction k as [|k IH]; simpl; auto. Qed.

(** C1, as the design states it, fails: with two cranks in the run queue
    and blocks of two, [runBatch(0, true)] commits twice, two units and
    then none, and [ceil(2 / 2)] is [1]. *)
Lemma runBatch_commit_count_counterexample :
  queue_holds 2 (controller (fresh 2%nat)) /\
  (fun r => (fst r, committed 0 (since (fresh 2%nat) (snd r))))
    <$> runBatch (options := blocks_of 2) 10 0 true (fresh 2%nat)
  = Some (Returned 2, [2; 0]) /\
  ~ (Z.of_nat (length [2; 0]) = ceil_div 2 2).
Proof.
  split; [apply (counting_queue_holds 2)|]. split; [reflexivity|].
  vm_compute. discriminate.
Qed.

(** The scenario of the design: 450 cranks in blocks of 200. *)
Lemma runBatch_drains_witness :
  0 < 200 /\ queue_holds 450 (controller (fresh 450%nat)) /\ (450 < 451)%nat /\
  exists w',
    runBatch (options := sourceOptions) 451 0 true (fresh 450%nat)
    = Some (Returned 450, w') /\
    committed 0 (since (fresh 450%nat) w') = [200; 200; 50].
Proof.
  split; [lia|]. split; [apply (counting_queue_holds 450)|]. split; [lia|].
  destruct (runBatch_drains (options := sourceOptions) 450 451 (fresh 450%nat)
              ltac:(simpl; lia) (counting_queue_holds 450) ltac:(lia))
    as (w' & Hrun & _ & _ & Hcommitted & _).
  exists w'. split; [exact Hrun|]. rewrite Hcommitted. reflexivity.
Defined.


(** ** The sealer *)

Module SealerProperties.
Import Sealer.

Lemma seal_maps sealer original label (r : Realm) s (m : gmap nat JSValue) :
  unsealMaps (snd (seal sealer original label r)) !! s = Some m ->
  (s = sealer /\ exists m0, unsealMaps r !! s = Some m0
                            /\ m = <[length (objects r) := original]> m0)
  \/ (s <> sealer /\ unsealMaps r !! s = Some m).
Proof.
  simpl. destruct (decide (sealer = s)) as [->|Hne].
  - rewrite list_lookup_alter_eq.
    destruct (unsealMaps r !! s) as [m0|]; simpl; [|done].
    intros [= <-]. left. split; [done|]. by exists m0.
  - rewrite list_lookup_alter_ne by done. intros Hm. right. by split.
Qed.

Lemma makeSealer_maps (r : Realm) s (m : gmap nat JSValue) :
  unsealMaps (snd (makeSealer r)) !! s = Some m ->
  unsealMaps r !! s = Some m \/ m = ∅.
Proof.
  simpl. rewrite lookup_app_Some.
  intros [Hold|[_ Hnew]]; [by left|right].
  apply list_lookup_singleton_Some in Hnew as [_ <-]. done.
Qed.

Lemma run_op_keys_exist op (r : Realm) : keys_exist r -> keys_exist (run_op op r).
Proof.
  intros Hr s m addr Hm Hsome. destruct op as [o| |sealer original label].
  - simpl in *. rewrite length_app. simpl.
    pose proof (Hr s m addr Hm Hsome). lia.
  - apply makeSealer_maps in Hm as [Hm| ->].
    + by apply (Hr s m addr).
    + rewrite lookup_empty in Hsome. by destruct Hsome.
  - unfold run_op in Hm |- *. case_decide; [|by apply (Hr s m addr)].
    change (objects (snd (seal sealer original label r)))
      with (objects r ++ [[("type"%string, VStr "sealed");
                           ("label"%string, label)]]).
    rewrite length_app. simpl.
    apply seal_maps in Hm as [(-> & m0 & Hm0 & ->)|[_ Hm]].
    + destruct (decide (addr = length (objects r))) as [->|Hne]; [lia|].
      rewrite lookup_insert_ne in Hsome by done.
      pose proof (Hr sealer m0 addr Hm0 Hsome). lia.
    + pose proof (Hr s m addr Hm Hsome). lia.
Qed.

Lemma run_keys_exist ops (r : Realm) : keys_exist r -> keys_exist (run ops r).
Proof.
  revert r. induction ops as [|op ops IH]; intros r Hr; [done|].
  simpl. by apply IH, run_op_keys_exist.
Qed.

Lemma empty_keys_exist : keys_exist empty.
Proof. intros s m addr Hm. done. Qed.

(** What a sealer has sealed stays sealed. *)
Lemma run_keeps_sealed ops (r : Realm) sealer (m : gmap nat JSValue) addr original :
  keys_exist r ->
  unsealMaps r !! sealer = Some m -> m !! addr = Some original ->
  exists m', unsealMaps (run ops r) !! sealer = Some m'
             /\ m' !! addr = Some original.
Proof.
  revert r m. induction ops as [|op ops IH]; intros r m Hr Hm Haddr.
  - by exists m.
  - simpl.
    assert (exists m1, unsealMaps (run_op op r) !! sealer = Some m1
                       /\ m1 !! addr = Some original) as (m1 & Hm1 & Haddr1).
    { destruct op as [o| |s x label]; simpl.
      - by exists m.
      - exists m. split; [|done]. by apply lookup_app_l_Some.
      - case_decide; [|by exists m]. simpl.
        destruct (decide (s = sealer)) as [->|Hne].
        + rewrite list_lookup_alter_eq, Hm. simpl.
          exists (<[length (objects r) := x]> m). split; [done|].
          rewrite lookup_insert_ne; [done|].
          assert (addr < length (objects r))%nat
            by (apply (Hr sealer m); [done|by exists original]).
          lia.
        + exists m. by rewrite list_lookup_alter_ne. }
    apply (IH _ m1); [by apply run_op_keys_exist|done|done].
Qed.

(** A key of an [unsealMap] was there before or is what its sealer
    sealed since. *)
Lemma run_keys_sealed ops (r : Realm) sealer (m : gmap nat JSValue) addr :
  unsealMaps (run ops r) !! sealer = Some m -> is_Some (m !! addr) ->
  (exists m0, unsealMaps r !! sealer = Some m0 /\ is_Some (m0 !! addr))
  \/ addr ∈ sealed_by sealer ops r.
Proof.
  revert r. induction ops as [|op ops IH]; intros r Hm Hsome.
  - left. by exists m.
  - simpl in Hm.
    destruct (IH _ Hm Hsome) as [(m1 & Hm1 & Hsome1)|Hin].
    + destruct op as [o| |s x label].
      * left. by exists m1.
      * apply makeSealer_maps in Hm1 as [Hm1| ->]; [left; by exists m1|].
        rewrite lookup_empty in Hsome1. by destruct Hsome1.
      * simpl in Hm1 |- *. case_decide as Hvalid.
        -- apply seal_maps in Hm1 as [(-> & m0 & Hm0 & ->)|[Hne Hm1]].
           ++ destruct (decide (addr = length (objects r))) as [->|Hne].
              ** right. rewrite decide_True by done. by left.
              ** left. exists m0. by rewrite lookup_insert_ne in Hsome1.
           ++ left. by exists m1.
        -- left. by exists m1.
    + right. destruct op as [o| |s x label]; simpl; try done.
      case_decide; [by right|done].
Qed.

(** C10. A sealer that a program has made gives back what it sealed:
    [unseal(seal(x, label))] is [x], at once and after whatever the
    program does next; and [unseal] of a value that the sealer's [seal]
    has not returned is [undefined]. *)
Theorem unseal_seal ops sealer original label ops' :
  (sealer < length (unsealMaps (run ops empty)))%nat ->
  unseal sealer (fst (seal sealer original label (run ops empty)))
    (snd (seal sealer original label (run ops empty))) = original /\
  unseal sealer (fst (seal sealer original label (run ops empty)))
    (run ops' (snd (seal sealer original label (run ops empty)))) = original /\
  (forall value,
     (forall addr, value = VObj addr -> addr ∉ sealed_by sealer ops empty) ->
     unseal sealer value (run ops empty) = VUndefined).
Proof.
  intros Hvalid. set (r := run ops empty) in *.
  assert (keys_exist r) as Hr by apply run_keys_exist, empty_keys_exist.
  destruct (lookup_lt_is_Some_2 _ _ Hvalid) as [m0 Hm0].
  assert (unsealMaps (snd (seal sealer original label r)) !! sealer
          = Some (<[length (objects r) := original]> m0)) as Hm
    by (simpl; by rewrite list_lookup_alter_eq, Hm0).
  assert (keys_exist (snd (seal sealer original label r))) as Hr'.
  { pose proof (run_op_keys_exist (OpSeal sealer original label) r Hr) as H.
    simpl in H. by rewrite decide_True in H. }
  destruct (run_keeps_sealed ops' _ sealer _ (length (objects r)) original
              Hr' Hm (lookup_insert_eq _ _ _)) as (m' & Hm' & Haddr').
  split; [|split].
  - unfold unseal. change (fst (seal sealer original label r))
      with (VObj (length (objects r))).
    by rewrite Hm, lookup_insert_eq.
  - unfold unseal. change (fst (seal sealer original label r))
      with (VObj (length (objects r))).
    by rewrite Hm', Haddr'.
  - intros value Hnot. unfold unseal.
    destruct value as [| | | | |addr]; try done.
    rewrite Hm0. destruct (m0 !! addr) as [x|] eqn:Haddr; [|done].
    exfalso.
    destruct (run_keys_sealed ops empty sealer m0 addr Hm0)
      as [(m1 & Hm1 & _)|Hin]; [by exists x|done|].
    by apply (Hnot addr).
Qed.

End SealerProperties.

(** Two sealers: what the first has sealed, the second does not unseal. *)
Lemma unseal_seal_witness :
  (0 < length (Sealer.unsealMaps
                 (Sealer.run [Sealer.OpMakeSealer; Sealer.OpMakeSealer;
                              Sealer.OpSeal 1 (VNum 5) (VStr "five")]
                    Sealer.empty)))%nat /\
  Sealer.unseal 0
    (fst (Sealer.seal 0 (VStr "secret") (VStr "note")
            (Sealer.run [Sealer.OpMakeSealer; Sealer.OpMakeSealer;
                         Sealer.OpSeal 1 (VNum 5) (VStr "five")]
               Sealer.empty)))
    (snd (Sealer.seal 0 (VStr "secret") (VStr "note")
            (Sealer.run [Sealer.OpMakeSealer; Sealer.OpMakeSealer;
                         Sealer.OpSeal 1 (VNum 5) (VStr "five")]
               Sealer.empty)))
  = VStr "secret" /\
  Sealer.unseal 0 (VObj 0)
    (Sealer.run [Sealer.OpMakeSealer; Sealer.OpMakeSealer;
                 Sealer.OpSeal 1 (VNum 5) (VStr "five")]
       Sealer.empty)
  = VUndefined.
Proof.
  assert (0 < length (Sealer.unsealMaps
                        (Sealer.run [Sealer.OpMakeSealer; Sealer.OpMakeSealer;
                                     Sealer.OpSeal 1 (VNum 5) (VStr "five")]
                           Sealer.empty)))%nat as Hvalid by (vm_compute; lia).
  split; [exact Hvalid|].
  destruct (SealerProperties.unseal_seal
              [Sealer.OpMakeSealer; Sealer.OpMakeSealer;
               Sealer.OpSeal 1 (VNum 5) (VStr "five")]
              0 (VStr "secret") (VStr "note") [] Hvalid)
    as (Hround & _ & Hother).
  split; [exact Hround|]. apply Hother.
  intros addr [= <-]. vm_compute. apply not_elem_of_nil.
Defined.

(** ** More on blocks and batches *)

Section Batches.
Context {Engine : Type} {kernel : Controller Engine} {options : Options}.
Implicit Types (w : World Engine).

Lemma runBatch_loop_run fuel doCommit runAll stepLimit totalSteps w c w' :
  runBatch_loop fuel doCommit runAll stepLimit totalSteps w = Some (c, w') ->
  batch_run doCommit runAll stepLimit totalSteps w c w'.
Proof.
  revert stepLimit totalSteps w.
  induction fuel as [|fuel IH]; intros stepLimit totalSteps w Hrun; [done|].
  simpl in Hrun.
  destruct (runBlock blockSize doCommit w) as [[steps|x] w1] eqn:Hblock.
  - destruct (_ && _) eqn:Hmore.
    + eapply batch_more; [done|done|]. by apply IH.
    + injection Hrun as <- <-. by apply batch_last.
  - injection Hrun as <- <-. by apply batch_threw.
Qed.

(** A batch that ends ends with enough fuel. *)
Lemma batch_run_fuel doCommit runAll stepLimit totalSteps w c w' :
  batch_run doCommit runAll stepLimit totalSteps w c w' ->
  exists fuel,
    runBatch_loop fuel doCommit runAll stepLimit totalSteps w = Some (c, w').
Proof.
  induction 1 as [sl t w x w1 Hblock|sl t w steps w1 Hblock Hstop
                  |sl t w steps w1 c w' Hblock Hmore _ [fuel IH]].
  - exists 1%nat. simpl. by rewrite Hblock.
  - exists 1%nat. simpl. by rewrite Hblock, Hstop.
  - exists (S fuel). simpl. by rewrite Hblock, Hmore.
Qed.

(** What [runBlock] adds to its loop. *)
Lemma runBlock_split requestedSteps doCommit w res w' :
  runBlock requestedSteps doCommit w = (res, w') ->
  exists w0,
    runBlock_loop (Z.to_nat requestedSteps) 0 w = (res, w0) /\
    w' = match res with
         | Returned _ => if doCommit then commit w0 else w0
         | Threw _ => w0
         end.
Proof.
  unfold runBlock.
  destruct (runBlock_loop _ 0 w) as [[actualSteps|x] w0];
    intros [= <- <-]; by exists w0.
Qed.

(** The loop of a block adds to [crankNumber] what it adds to
    [actualSteps], whatever the kernel. *)
Lemma runBlock_loop_cranks n actualSteps w c w' :
  runBlock_loop n actualSteps w = (c, w') ->
  crankNumber w <= crankNumber w' /\
  (forall total, c = Returned total ->
     total - actualSteps = crankNumber w' - crankNumber w).
Proof.
  revert actualSteps w c w'.
  induction n as [|n IH]; intros actualSteps w c w' Hrun; simpl in Hrun.
  - injection Hrun as <- <-. split; [lia|]. intros total [= <-]. lia.
  - destruct (await_step_frame w) as (cb & ps & _ & Hstep).
    rewrite Hstep in Hrun.
    destruct (completion (step (controller w))) as [stepped|x].
    + destruct (stepped <? 1) eqn:Hidle.
      * injection Hrun as <- <-. simpl. split; [lia|].
        intros total [= <-]. lia.
      * apply IH in Hrun as [Hle Htotal]. simpl in *. split; [lia|].
        intros total Hc. specialize (Htotal total Hc). lia.
    + injection Hrun as <- <-. simpl. split; [lia|done].
Qed.

Lemma runBlock_cranks requestedSteps doCommit w c w' :
  runBlock requestedSteps doCommit w = (c, w') ->
  crankNumber w <= crankNumber w' /\
  (forall total, c = Returned total -> total = crankNumber w' - crankNumber w).
Proof.
  intros (w0 & Hloop & ->)%runBlock_split.
  apply runBlock_loop_cranks in Hloop as [Hle Htotal].
  assert (crankNumber (match c with
                       | Returned _ => if doCommit then commit w0 else w0
                       | Threw _ => w0
                       end) = crankNumber w0) as ->
    by (destruct c; [by destruct doCommit|done]).
  split; [done|]. intros total Hc. specialize (Htotal total Hc). lia.
Qed.

Lemma batch_run_cranks doCommit runAll stepLimit totalSteps w c w' :
  batch_run doCommit runAll stepLimit totalSteps w c w' ->
  crankNumber w <= crankNumber w' /\
  (forall total, c = Returned total ->
     total - totalSteps = crankNumber w' - crankNumber w).
Proof.
  induction 1 as [sl t w x w1 Hblock|sl t w steps w1 Hblock Hstop
                  |sl t w steps w1 c w' Hblock Hmore _ [IHle IH]];
    apply runBlock_cranks in Hblock as [Hle Hsteps].
  - done.
  - split; [done|]. intros total [= <-]. specialize (Hsteps steps eq_refl). lia.
  - specialize (Hsteps steps eq_refl). split; [lia|].
    intros total Hc. specialize (IH total Hc). lia.
Qed.

(** X1. When [runBatch] returns, what it returns is what it has added to
    [crankNumber], and that is not negative: this holds of every kernel,
    whatever its steps report. *)
Theorem runBatch_counts_cranks fuel stepLimit doCommit w total w' :
  runBatch fuel stepLimit doCommit w = Some (Returned total, w') ->
  crankNumber w' = crankNumber w + total /\ 0 <= total.
Proof.
  intros Hrun%runBatch_loop_run.
  apply batch_run_cranks in Hrun as [Hle Htotal].
  specialize (Htotal total eq_refl). lia.
Qed.

End Batches.

(** Five cranks in blocks of two. *)
Lemma runBatch_counts_cranks_witness :
  runBatch (options := blocks_of 2) 10 0 true (fresh 5%nat)
  = Some (Returned 5,
          world_of (runBatch (options := blocks_of 2) 10 0 true (fresh 5%nat))
                   (fresh 5%nat)) /\
  crankNumber (world_of (runBatch (options := blocks_of 2) 10 0 true
                           (fresh 5%nat)) (fresh 5%nat)) = 5.
Proof.
  assert (runBatch (options := blocks_of 2) 10 0 true (fresh 5%nat)
          = Some (Returned 5,
                  world_of (runBatch (options := blocks_of 2) 10 0 true
                              (fresh 5%nat)) (fresh 5%nat))) as Hrun
    by (vm_compute; reflexivity).
  split; [exact Hrun|].
  destruct (runBatch_counts_cranks (options := blocks_of 2) _ _ _ _ _ _ Hrun)
    as [Hcranks _].
  rewrite Hcranks. reflexivity.
Defined.

Section BatchTraces.
Context {Engine : Type} {kernel : Controller Engine} {options : Options}.
Implicit Types (w : World Engine).

Lemma since_trans w w1 w2 :
  follows w w1 -> follows w1 w2 -> since w w2 = since w w1 ++ since w1 w2.
Proof.
  intros H1 H2.
  by destruct (since_chain w w1 w2 _ (follows_trace _ _ H1) (follows_trace _ _ H2)).
Qed.

Lemma batch_run_follows doCommit runAll stepLimit totalSteps w c w' :
  batch_run doCommit runAll stepLimit totalSteps w c w' -> follows w w'.
Proof.
  induction 1 as [sl t w x w1 Hblock|sl t w steps w1 Hblock Hstop
                  |sl t w steps w1 c w' Hblock Hmore _ IH];
    pose proof (runBlock_follows blockSize doCommit w) as Hf;
    rewrite Hblock in Hf; simpl in Hf; [done|done|].
  by eapply follows_trans.
Qed.

(** The trace of a block: a step that threw ends it, before any commit;
    a block that returns has had no step throw, and ends with its commit
    when it commits. *)
Lemma runBlock_trace requestedSteps doCommit w res w' :
  runBlock requestedSteps doCommit w = (res, w') ->
  match res with
  | Threw x =>
      (exists pre, since w w' = pre ++ [EvStepThrew x]
                   /\ (forall y, EvStepThrew y ∉ pre))
      /\ (EvCommit ∉ since w w') /\ durable w' = durable w
  | Returned _ =>
      (forall y, EvStepThrew y ∉ since w w') /\
      if doCommit
      then (exists pre, since w w' = pre ++ [EvCommit])
           /\ durable w' = controller w'
      else (EvCommit ∉ since w w') /\ durable w' = durable w
  end.
Proof.
  intros (w0 & Hloop & ->)%runBlock_split.
  apply runBlock_loop_trace in Hloop as (Htr & Hd & Hno & _ & Hc & _).
  destruct res as [actualSteps|x]; [|done].
  destruct doCommit; [|done].
  assert (trace (commit w0) = trace w ++ (since w w0 ++ [EvCommit])) as Htr'
    by (simpl; rewrite Htr at 1; by rewrite <- app_assoc).
  rewrite (since_extension _ _ _ Htr'). split; [|split; [by eexists|done]].
  intros y. rewrite elem_of_app, list_elem_of_singleton.
  intros [Hin|?]; [by apply (Hc y)|done].
Qed.

Lemma batch_run_uncommitted runAll stepLimit totalSteps w c w' :
  batch_run false runAll stepLimit totalSteps w c w' ->
  (EvCommit ∉ since w w') /\ durable w' = durable w.
Proof.
  induction 1 as [sl t w x w1 Hblock|sl t w steps w1 Hblock Hstop
                  |sl t w steps w1 c w' Hblock Hmore Hrest [IHno IHd]];
    pose proof (runBlock_follows blockSize false w) as Hf;
    rewrite Hblock in Hf; simpl in Hf;
    apply runBlock_trace in Hblock.
  - by destruct Hblock as (_ & ? & ?).
  - by destruct Hblock as (_ & ? & ?).
  - destruct Hblock as (_ & Hno & Hd).
    rewrite (since_trans w w1 w' Hf (batch_run_follows _ _ _ _ _ _ _ Hrest)).
    split; [|congruence]. rewrite elem_of_app. by intros [?|?].
Qed.

(** X2. A batch that is not asked to commit does not call
    [store.commit()], however it ends: the stored state is what it
    was. *)
Theorem runBatch_without_commit fuel stepLimit w c w' :
  runBatch fuel stepLimit false w = Some (c, w') ->
  (EvCommit ∉ since w w') /\ durable w' = durable w.
Proof. intros Hrun%runBatch_loop_run. by eapply batch_run_uncommitted. Qed.

(** X3. With [blockMode] off, as the source sets it, [handleMessage]
    never calls [store.commit()], however it ends: nothing of what a
    message does is stored. *)
Theorem handleMessage_never_commits fuel args w c w' :
  blockMode = false ->
  handleMessage fuel args w = Some (c, w') ->
  (EvCommit ∉ since w w') /\ durable w' = durable w.
Proof.
  intros Hmode. unfold handleMessage. rewrite Hmode.
  pose proof (accept_follows args w) as Hf.
  assert ((EvCommit ∉ since w (snd (accept args w)))
          /\ durable (snd (accept args w)) = durable w) as [Hno Hd].
  { destruct (accept_frame args w) as (cb & ps & Hcb & _ & ->).
    split; [|done].
    erewrite since_extension; [|simpl; by rewrite <- app_assoc].
    intros Hin.
    apply elem_of_app in Hin as [Hin|Hin];
      [by repeat (apply elem_of_cons in Hin as [?|Hin]; [done|]);
          apply elem_of_nil in Hin|].
    apply elem_of_app in Hin as [Hin|Hin].
    - apply (bridge_events_pure cb EvCommit Hcb); [by intros []|done].
    - destruct (completion _); simpl in Hin;
        [by apply elem_of_nil in Hin|by apply list_elem_of_singleton in Hin]. }
  destruct (accept args w) as [[[messageId deferred]|x] w1]; simpl in *.
  - destruct (runBatch fuel 0 false w1) as [[[totalSteps|x] w2]|] eqn:Hrun;
      [| |done]; intros [= _ <-];
      pose proof (runBatch_loop_run _ _ _ _ _ _ _ _ Hrun) as Hbatch;
      destruct (batch_run_uncommitted _ _ _ _ _ _ Hbatch) as [Hno' Hd'];
      rewrite (since_trans w w1 w2 Hf (batch_run_follows _ _ _ _ _ _ _ Hbatch));
      (split; [rewrite elem_of_app; by intros [?|?]|congruence]).
  - by intros [= _ <-].
Qed.

Lemma batch_run_committed runAll stepLimit totalSteps w c w' :
  batch_run true runAll stepLimit totalSteps w c w' ->
  forall total, c = Returned total ->
    (exists pre, since w w' = pre ++ [EvCommit]) /\ durable w' = controller w'.
Proof.
  induction 1 as [sl t w x w1 Hblock|sl t w steps w1 Hblock Hstop
                  |sl t w steps w1 c w' Hblock Hmore Hrest IH];
    intros total Hc; [done| |].
  - apply runBlock_trace in Hblock. by destruct Hblock as (_ & ? & ?).
  - pose proof (runBlock_follows blockSize true w) as Hf.
    rewrite Hblock in Hf. simpl in Hf.
    destruct (IH total Hc) as [(pre & Hpre) Hd]. split; [|done].
    rewrite (since_trans w w1 w' Hf (batch_run_follows _ _ _ _ _ _ _ Hrest)).
    exists (since w w1 ++ pre). by rewrite Hpre, app_assoc.
Qed.

(** X4. A batch that is asked to commit and that returns has committed
    last of all: the stored state is the state the kernel is in. *)
Theorem runBatch_commits_last fuel stepLimit w total w' :
  runBatch fuel stepLimit true w = Some (Returned total, w') ->
  last (since w w') = Some EvCommit /\ durable w' = controller w'.
Proof.
  intros Hrun%runBatch_loop_run.
  destruct (batch_run_committed _ _ _ _ _ _ Hrun total eq_refl)
    as [(pre & ->) Hd].
  split; [apply last_snoc|done].
Qed.



Lemma runBatch_loop_hangs fuel doCommit runAll stepLimit totalSteps w :
  blockSize <= 0 -> runAll || (stepLimit >? 0) = true ->
  runBatch_loop fuel doCommit runAll stepLimit totalSteps w = None.
Proof.
  intros Hsize Hgo. revert totalSteps w.
  induction fuel as [|fuel IH]; intros totalSteps w; [done|].
  simpl. unfold runBlock. rewrite Z2Nat.nonpos by done. simpl.
  rewrite Z.sub_0_r, Hgo. replace (0 >=? blockSize) with true by lia.
  simpl. apply IH.
Qed.

(** X6. With a block size of zero or less, a batch with a limit of zero
    or more never ends, whatever the fuel: every block runs no step,
    which counts as a full block, and the limit is never used up. *)
Theorem runBatch_empty_blocks_hang fuel stepLimit doCommit w :
  blockSize <= 0 -> 0 <= stepLimit ->
  runBatch fuel stepLimit doCommit w = None.
Proof.
  intros Hsize Hlimit. apply runBatch_loop_hangs; [done|lia].
Qed.

End BatchTraces.

(** Three cranks run without a commit: the store still holds the three. *)
Lemma runBatch_without_commit_witness :
  runBatch (options := blocks_of 2) 10 0 false (fresh 3%nat)
  = Some (Returned 3,
          world_of (runBatch (options := blocks_of 2) 10 0 false (fresh 3%nat))
                   (fresh 3%nat)) /\
  durable (world_of (runBatch (options := blocks_of 2) 10 0 false (fresh 3%nat))
                    (fresh 3%nat)) = 3%nat.
Proof.
  assert (runBatch (options := blocks_of 2) 10 0 false (fresh 3%nat)
          = Some (Returned 3,
                  world_of (runBatch (options := blocks_of 2) 10 0 false
                              (fresh 3%nat)) (fresh 3%nat))) as Hrun
    by (vm_compute; reflexivity).
  split; [exact Hrun|].
  destruct (runBatch_without_commit (options := blocks_of 2) _ _ _ _ _ Hrun)
    as [_ Hdurable].
  rewrite Hdurable. reflexivity.
Defined.

(** A message to the scripted kernel, with the settings of the source. *)
Lemma handleMessage_never_commits_witness :
  blockMode (Options := sourceOptions) = false /\
  handleMessage (options := sourceOptions) 5 [VNum 7] (fresh (idle 0))
  = Some (Returned 0%nat,
          world_of (handleMessage (options := sourceOptions) 5 [VNum 7]
                      (fresh (idle 0))) (fresh (idle 0))) /\
  durable (world_of (handleMessage (options := sourceOptions) 5 [VNum 7]
                       (fresh (idle 0))) (fresh (idle 0))) = idle 0.
Proof.
  assert (handleMessage (options := sourceOptions) 5 [VNum 7] (fresh (idle 0))
          = Some (Returned 0%nat,
                  world_of (handleMessage (options := sourceOptions) 5 [VNum 7]
                              (fresh (idle 0))) (fresh (idle 0)))) as Hrun
    by (vm_compute; reflexivity).
  split; [reflexivity|]. split; [exact Hrun|].
  destruct (handleMessage_never_commits (options := sourceOptions)
              _ _ _ _ _ eq_refl Hrun) as [_ Hdurable].
  rewrite Hdurable. reflexivity.
Defined.

(** Three cranks in committed blocks of two: all of it is stored. *)
Lemma runBatch_commits_last_witness :
  runBatch (options := blocks_of 2) 10 0 true (fresh 3%nat)
  = Some (Returned 3,
          world_of (runBatch (options := blocks_of 2) 10 0 true (fresh 3%nat))
                   (fresh 3%nat)) /\
  durable (world_of (runBatch (options := blocks_of 2) 10 0 true (fresh 3%nat))
                    (fresh 3%nat)) = 0%nat.
Proof.
  assert (runBatch (options := blocks_of 2) 10 0 true (fresh 3%nat)
          = Some (Returned 3,
                  world_of (runBatch (options := blocks_of 2) 10 0 true
                              (fresh 3%nat)) (fresh 3%nat))) as Hrun
    by (vm_compute; reflexivity).
  split; [exact Hrun|].
  destruct (runBatch_commits_last (options := blocks_of 2) _ _ _ _ _ Hrun)
    as [_ Hdurable].
  rewrite Hdurable. reflexivity.
Defined.


(** Blocks of no step: a thousand of them do not end the batch. *)
Lemma runBatch_empty_blocks_hang_witness :
  blockSize (Options := blocks_of 0) <= 0 /\ 0 <= 0 /\
  runBatch (options := blocks_of 0) 1000 0 true (fresh 3%nat) = None.
Proof.
  split; [simpl; lia|]. split; [lia|].
  apply (runBatch_empty_blocks_hang (options := blocks_of 0)); simpl; lia.
Defined.

Section UnitSteps.
Context {Engine : Type} {kernel : Controller Engine} {options : Options}.
Implicit Types (w : World Engine).

(** On a kernel whose steps run one unit at most, a loop that returns
    less than it was asked for has seen a step report nothing. *)
Lemma runBlock_loop_short n actualSteps w total w' :
  unit_steps ->
  runBlock_loop n actualSteps w = (Returned total, w') ->
  total - actualSteps < Z.of_nat n ->
  EvStep 0 ∈ since w w'.
Proof.
  intros Hunit. revert actualSteps w.
  induction n as [|n IH]; intros actualSteps w Hrun Hshort; simpl in Hrun.
  - injection Hrun as <- <-. lia.
  - destruct (await_step_frame w) as (cb & ps & Hcb & Hstep).
    rewrite Hstep in Hrun. set (w1 := MkWorld _ _ _ _ _ _ _) in *.
    assert (trace w1 = trace w
              ++ (cb ++ [step_event (completion (step (controller w)))]))
      as Htr1 by done.
    pose proof (Hunit (controller w)) as Hstepped.
    destruct (completion (step (controller w))) as [stepped|x]; [|done].
    destruct (Hstepped stepped eq_refl) as [-> | ->]; simpl in Hrun.
    + injection Hrun as <- <-. rewrite (since_extension w w1 _ Htr1).
      apply elem_of_app. right. by left.
    + pose proof (runBlock_loop_trace _ _ _ _ _ Hrun) as (Htr & _).
      destruct (since_chain w (add_cranks 1 w1) w' _ Htr1 Htr) as [_ ->].
      apply elem_of_app. right. apply (IH _ _ Hrun). lia.
Qed.

Lemma runBlock_unit requestedSteps doCommit w steps w' :
  unit_steps -> 0 <= requestedSteps ->
  runBlock requestedSteps doCommit w = (Returned steps, w') ->
  0 <= steps <= requestedSteps /\
  (steps < requestedSteps -> EvStep 0 ∈ since w w').
Proof.
  intros Hunit Hreq (w0 & Hloop & ->)%runBlock_split.
  pose proof (runBlock_loop_units _ _ _ _ _ Hunit Hloop) as (Hbound & _ & Htotal).
  pose proof (runBlock_loop_trace _ _ _ _ _ Hloop) as (Htr & _).
  specialize (Htotal steps eq_refl). split; [lia|]. intros Hshort.
  assert (EvStep 0 ∈ since w w0) as Hin
    by (apply (runBlock_loop_short _ _ _ _ _ Hunit Hloop); lia).
  destruct doCommit; [|done].
  assert (trace (commit w0) = trace w ++ (since w w0 ++ [EvCommit])) as Htr'
    by (simpl; rewrite Htr at 1; by rewrite <- app_assoc).
  rewrite (since_extension _ _ _ Htr'). apply elem_of_app. by left.
Qed.

Lemma batch_run_unit doCommit runAll stepLimit totalSteps w c w' :
  unit_steps -> 0 < blockSize ->
  batch_run doCommit runAll stepLimit totalSteps w c w' ->
  forall total, c = Returned total ->
    0 <= total - totalSteps /\
    (runAll = false -> 0 < stepLimit ->
     total - totalSteps <= stepLimit + blockSize - 1) /\
    (runAll = true \/ (0 < stepLimit /\ total - totalSteps < stepLimit) ->
     EvStep 0 ∈ since w w').
Proof.
  intros Hunit Hsize.
  assert (0 <= blockSize) as Hsize' by lia.
  induction 1 as [sl t w x w1 Hblock|sl t w steps w1 Hblock Hstop
                  |sl t w steps w1 c w' Hblock Hmore Hrest IH];
    intros total Hc; [done| |];
    pose proof (runBlock_follows blockSize doCommit w) as Hf;
    rewrite Hblock in Hf; simpl in Hf;
    apply (runBlock_unit blockSize doCommit w steps w1 Hunit Hsize')
      in Hblock as [Hsteps Hshort].
  - injection Hc as <-. split; [lia|]. split; [intros _ ?; lia|].
    intros Hdrained. apply Hshort.
    destruct runAll; simpl in Hstop; [lia|].
    destruct Hdrained as [?|[? ?]]; [done|]. lia.
  - destruct (IH total Hc) as (Hpos & Hbound & Hdrained).
    rewrite (since_trans w w1 w' Hf (batch_run_follows _ _ _ _ _ _ _ Hrest)).
    split; [lia|]. split.
    + intros -> Hlimit. simpl in Hmore.
      assert (total - (t + steps) <= sl - steps + blockSize - 1)
        by (apply Hbound; [done|lia]).
      lia.
    + intros Hcase. apply elem_of_app. right. apply Hdrained.
      destruct runAll; [by left|right]. simpl in Hmore.
      destruct Hcase as [?|[Hlimit Hless]]; [done|]. lia.
Qed.

(** X7. On a kernel whose steps run one unit at most and with a block
    size above zero, a batch with a limit above zero that returns has run
    no more than [stepLimit + blockSize - 1] units, however much work the
    kernel had; and if it has run less than [stepLimit], a step of the
    kernel has reported that nothing was left. *)
Theorem runBatch_limit_bound fuel stepLimit doCommit w total w' :
  unit_steps -> 0 < blockSize -> 0 < stepLimit ->
  runBatch fuel stepLimit doCommit w = Some (Returned total, w') ->
  0 <= total <= stepLimit + blockSize - 1 /\
  (total < stepLimit -> EvStep 0 ∈ since w w').
Proof.
  intros Hunit Hsize Hlimit. unfold runBatch.
  replace (stepLimit =? 0) with false by lia.
  intros Hrun%runBatch_loop_run.
  destruct (batch_run_unit _ _ _ _ _ _ _ Hunit Hsize Hrun total eq_refl)
    as (Hpos & Hbound & Hdrained).
  specialize (Hbound eq_refl Hlimit). split; [lia|].
  intros Hless. apply Hdrained. right. lia.
Qed.

(** X8. On a kernel whose steps run one unit at most and with a block
    size above zero, a batch without a limit returns only after a step of
    the kernel has reported that nothing was left to run. *)
Theorem runBatch_returns_drained fuel doCommit w total w' :
  unit_steps -> 0 < blockSize ->
  runBatch fuel 0 doCommit w = Some (Returned total, w') ->
  EvStep 0 ∈ since w w'.
Proof.
  intros Hunit Hsize Hrun%runBatch_loop_run.
  destruct (batch_run_unit _ _ _ _ _ _ _ Hunit Hsize Hrun total eq_refl)
    as (_ & _ & Hdrained).
  apply Hdrained. by left.
Qed.

End UnitSteps.

(** A limit of four on three cranks: the batch runs the three. *)
Lemma runBatch_limit_bound_witness :
  unit_steps (Engine := nat) /\ 0 < blockSize (Options := blocks_of 2) /\
  0 < 4 /\
  runBatch (options := blocks_of 2) 10 4 true (fresh 3%nat)
  = Some (Returned 3,
          world_of (runBatch (options := blocks_of 2) 10 4 true (fresh 3%nat))
                   (fresh 3%nat)) /\
  0 <= 3 <= 4 + blockSize (Options := blocks_of 2) - 1.
Proof.
  assert (runBatch (options := blocks_of 2) 10 4 true (fresh 3%nat)
          = Some (Returned 3,
                  world_of (runBatch (options := blocks_of 2) 10 4 true
                              (fresh 3%nat)) (fresh 3%nat))) as Hrun
    by (vm_compute; reflexivity).
  split; [exact counting_unit_steps|]. split; [simpl; lia|]. split; [lia|].
  split; [exact Hrun|].
  assert (0 < blockSize (Options := blocks_of 2)) as Hsize by (simpl; lia).
  assert (0 < 4) as Hlimit by lia.
  exact (proj1 (runBatch_limit_bound (options := blocks_of 2) _ _ _ _ _ _
                  counting_unit_steps Hsize Hlimit Hrun)).
Defined.

(** Three cranks in blocks of two, without a limit. *)
Lemma runBatch_returns_drained_witness :
  unit_steps (Engine := nat) /\ 0 < blockSize (Options := blocks_of 2) /\
  runBatch (options := blocks_of 2) 10 0 true (fresh 3%nat)
  = Some (Returned 3,
          world_of (runBatch (options := blocks_of 2) 10 0 true (fresh 3%nat))
                   (fresh 3%nat)) /\
  EvStep 0 ∈ since (fresh 3%nat)
                   (world_of (runBatch (options := blocks_of 2) 10 0 true
                                (fresh 3%nat)) (fresh 3%nat)).
Proof.
  assert (runBatch (options := blocks_of 2) 10 0 true (fresh 3%nat)
          = Some (Returned 3,
                  world_of (runBatch (options := blocks_of 2) 10 0 true
                              (fresh 3%nat)) (fresh 3%nat))) as Hrun
    by (vm_compute; reflexivity).
  split; [exact counting_unit_steps|]. split; [simpl; lia|].
  split; [exact Hrun|].
  assert (0 < blockSize (Options := blocks_of 2)) as Hsize by (simpl; lia).
  exact (runBatch_returns_drained (options := blocks_of 2) _ _ _ _ _
           counting_unit_steps Hsize Hrun).
Defined.

(** ** More on the message bridge *)

Section BridgeInvariant.
Context {Engine : Type} {kernel : Controller Engine}.
Implicit Types (w : World Engine).

Lemma first_resolution_app d (a b : list Event) :
  first_resolution d (a ++ b)
  = match first_resolution d a with
    | Some value => Some value
    | None => first_resolution d b
    end.
Proof.
  induction a as [|ev a IH]; [done|].
  destruct ev; simpl; try done. by case_decide.
Qed.

Lemma first_resolution_None d (tr : list Event) value :
  first_resolution d tr = None -> EvResolve d value ∉ tr.
Proof.
  induction tr as [|ev tr IH]; intros Hnone; [apply not_elem_of_nil|].
  rewrite not_elem_of_cons. destruct ev; simpl in Hnone;
    try (split; [done|by apply IH]).
  case_decide; [done|]. split; [congruence|by apply IH].
Qed.

Lemma bridge_inv_fresh (e : Engine) : bridge_inv (fresh e).
Proof.
  constructor; simpl; try done.
  - intros id. rewrite lookup_empty. case_decide; [lia|done].
  - intros d Hd. lia.
Qed.

(** What leaves the counter, the mapping and the promises alone and
    records no resolution keeps the invariant. *)
Lemma bridge_inv_frame w w' added :
  bridge_inv w ->
  messageCount w' = messageCount w ->
  messageResponsePromises w' = messageResponsePromises w ->
  promises w' = promises w ->
  trace w' = trace w ++ added ->
  (forall d, first_resolution d added = None) ->
  bridge_inv w'.
Proof.
  intros [Hc He Hp Hu] Hcount Hmap Hproms Htr Hadded.
  constructor; rewrite ?Hcount, ?Hmap, ?Hproms, ?Htr; try done.
  - intros d Hd. rewrite first_resolution_app, Hadded, (Hp d Hd).
    by destruct (first_resolution d (trace w)).
  - intros d Hd. by rewrite first_resolution_app, Hadded, (Hu d Hd).
Qed.

Lemma bridge_inv_outbound msgId value w :
  bridge_inv w -> bridge_inv (doOutboundBridge msgId value w).
Proof.
  intros Hinv. unfold doOutboundBridge.
  destruct (messageResponsePromises w !! msgId) as [d|] eqn:Hd.
  - destruct Hinv as [Hc He Hp Hu]. rewrite He in Hd.
    case_decide as Hrange; [|done]. injection Hd as <-.
    assert (Z.to_nat msgId < length (promises w))%nat as Hlt by lia.
    constructor; simpl; try done.
    + by rewrite length_alter.
    + rewrite length_alter. intros d Hd. rewrite first_resolution_app. simpl.
      destruct (decide (Z.to_nat msgId = d)) as [<-|Hne].
      * rewrite list_lookup_alter_eq, (Hp _ Hlt).
        by destruct (first_resolution _ (trace w)).
      * rewrite list_lookup_alter_ne, (Hp d Hd) by done.
        by destruct (first_resolution d (trace w)).
    + rewrite length_alter. intros d Hd. rewrite first_resolution_app, (Hu d Hd).
      simpl. case_decide; [lia|done].
  - by apply (bridge_inv_frame w _ [EvWarn msgId]).
Qed.

Lemma bridge_inv_callbacks out w : bridge_inv w -> bridge_inv (callbacks out w).
Proof.
  revert w. induction out as [|[msgId value] out IH]; intros w Hinv; [done|].
  by apply IH, bridge_inv_outbound.
Qed.

Lemma bridge_inv_await_step w : bridge_inv w -> bridge_inv (snd (await_step w)).
Proof.
  intros Hinv. unfold await_step.
  pose proof (bridge_inv_callbacks (outbound (step (controller w))) w Hinv)
    as Hcb.
  destruct (completion (step (controller w))) as [stepped|x]; simpl.
  - by apply (bridge_inv_frame _ _ [EvStep stepped] Hcb).
  - by apply (bridge_inv_frame _ _ [EvStepThrew x] Hcb).
Qed.

Lemma bridge_inv_at_delivery args w :
  bridge_inv w -> bridge_inv (at_delivery args w).
Proof.
  intros [Hc He Hp Hu]. constructor; simpl.
  - rewrite length_app. simpl. lia.
  - intros id. destruct (decide (id = messageCount w)) as [->|Hne].
    + rewrite lookup_insert_eq. case_decide; [|lia]. f_equal. lia.
    + rewrite lookup_insert_ne, He by done. repeat case_decide; try done; lia.
  - rewrite length_app. simpl. intros d Hd. rewrite first_resolution_app. simpl.
    destruct (decide (d < length (promises w))%nat) as [Hlt|Hge].
    + rewrite lookup_app_l, (Hp d Hlt) by done.
      by destruct (first_resolution d (trace w)).
    + assert (d = length (promises w)) as -> by lia.
      rewrite list_lookup_middle, (Hu (length (promises w))) by done. done.
  - rewrite length_app. simpl. intros d Hd.
    rewrite first_resolution_app, (Hu d) by lia. done.
Qed.

Lemma bridge_inv_accept args w : bridge_inv w -> bridge_inv (snd (accept args w)).
Proof.
  intros Hinv.
  pose proof (bridge_inv_callbacks
                (outbound (deliverInbound (messageCount w) args (controller w)))
                _ (bridge_inv_at_delivery args w Hinv)) as Hcb.
  destruct (accept_frame args w) as (cb & ps & _ & Hw & ->).
  rewrite Hw in Hcb. simpl.
  apply (bridge_inv_frame _ _
           (deliver_event (completion (deliverInbound (messageCount w) args
                                         (controller w)))) Hcb);
    try done.
  - simpl. by rewrite app_assoc.
  - intros d. by destruct (completion _).
Qed.

Lemma bridge_inv_exec a w : bridge_inv w -> bridge_inv (exec a w).
Proof.
  intros Hinv. destruct a as [args| | |msgId value]; simpl.
  - by apply bridge_inv_accept.
  - unfold crank. pose proof (bridge_inv_await_step w Hinv) as Hstep.
    destruct (await_step w) as [[stepped|x] w1]; simpl in *; [|done].
    destruct (stepped <? 1); [done|].
    apply (bridge_inv_frame w1 _ [] Hstep); try done. simpl.
    by rewrite app_nil_r.
  - by apply (bridge_inv_frame w _ [EvCommit]).
  - by apply bridge_inv_outbound.
Qed.

Lemma bridge_inv_execs acts w : bridge_inv w -> bridge_inv (execs acts w).
Proof.
  revert w. induction acts as [|a acts IH]; intros w Hinv; [done|].
  by apply IH, bridge_inv_exec.
Qed.

(** X9. In every world of a runner, the mapping holds exactly the
    identifiers issued so far, [0] to [messageCount - 1]: it has
    [messageCount] entries, and as many deferreds were made. It grows by
    an entry with every message and never shrinks. *)
Theorem mapping_holds_every_identifier (e : Engine) acts :
  (forall id,
     is_Some (messageResponsePromises (execs acts (fresh e)) !! id)
     <-> 0 <= id < messageCount (execs acts (fresh e))) /\
  size (messageResponsePromises (execs acts (fresh e)))
  = Z.to_nat (messageCount (execs acts (fresh e))) /\
  length (promises (execs acts (fresh e)))
  = Z.to_nat (messageCount (execs acts (fresh e))).
Proof.
  destruct (bridge_inv_execs acts _ (bridge_inv_fresh e)) as [Hc He _ _].
  set (w := execs acts (fresh e)) in *.
  assert (forall id, is_Some (messageResponsePromises w !! id)
                     <-> 0 <= id < messageCount w) as Hdom.
  { intros id. rewrite He.
    case_decide; split; intros Hid; try done;
      try (by eexists); by destruct Hid. }
  split; [done|]. split; [|lia].
  rewrite <- size_dom.
  assert (dom (messageResponsePromises w)
          = list_to_set (seqZ 0 (messageCount w))) as ->.
  { apply set_eq. intros id.
    rewrite elem_of_dom, Hdom, elem_of_list_to_set, elem_of_seqZ. lia. }
  rewrite size_list_to_set by apply NoDup_seqZ. by rewrite length_seqZ.
Qed.

(** X10. In every world of a runner, the outbound callback called with
    one identifier leaves alone the promise of every other identifier:
    what it was resolved with, or that it is pending, is as before. *)
Theorem responses_not_swapped (e : Engine) acts msgId value id' d' :
  msgId <> id' ->
  messageResponsePromises (execs acts (fresh e)) !! id' = Some d' ->
  settled d' (doOutboundBridge msgId value (execs acts (fresh e)))
  = settled d' (execs acts (fresh e)).
Proof.
  intros Hne Hd'.
  destruct (bridge_inv_execs acts _ (bridge_inv_fresh e)) as [Hc He _ _].
  set (w := execs acts (fresh e)) in *.
  unfold doOutboundBridge, settled.
  destruct (messageResponsePromises w !! msgId) as [d|] eqn:Hd; [|done].
  rewrite He in Hd, Hd'. repeat case_decide; try done.
  injection Hd as <-. injection Hd' as <-. simpl.
  rewrite list_lookup_alter_ne; [done|]. lia.
Qed.

(** X11. In every world of a runner, what the caller of [handleMessage]
    gets from a promise is the value of the first [resolve] that the
    trace records for its deferred, and nothing as long as there is
    none. *)
Theorem promise_holds_first_resolution (e : Engine) acts d :
  settled d (execs acts (fresh e))
  = first_resolution d (trace (execs acts (fresh e))).
Proof.
  destruct (bridge_inv_execs acts _ (bridge_inv_fresh e)) as [_ _ Hp Hu].
  set (w := execs acts (fresh e)) in *. unfold settled.
  destruct (decide (d < length (promises w))%nat) as [Hlt|Hge].
  - rewrite (Hp d Hlt). by destruct (first_resolution d (trace w)).
  - rewrite lookup_ge_None_2, Hu by lia. done.
Qed.

(** X12. When [deliverInbound] throws, [handleMessage] throws the same
    without running a step of the kernel; the identifier is used up all
    the same and its entry stays in the mapping. *)
Theorem failed_delivery_keeps_entry {options : Options} fuel args w x :
  completion (deliverInbound (messageCount w) args (controller w)) = Threw x ->
  handleMessage fuel args w = Some (Threw x, snd (accept args w)) /\
  attempts (since w (snd (accept args w))) = O /\
  messageCount (snd (accept args w)) = messageCount w + 1 /\
  messageResponsePromises (snd (accept args w)) !! messageCount w
  = Some (length (promises w)).
Proof.
  intros Hthrew. unfold handleMessage.
  destruct (accept_frame args w) as (cb & ps & Hcb & _ & Haccept).
  rewrite Haccept, Hthrew. simpl. split; [done|].
  split; [|split; [done|apply lookup_insert_eq]].
  erewrite since_extension; [|simpl; by rewrite <- app_assoc].
  rewrite !attempts_app, (bridge_events_attempts cb Hcb). done.
Qed.

End BridgeInvariant.

Section Startup.
Context {Engine : Type} {kernel : Controller Engine} {options : Options}.

(** X13. When [createSwingsetRunner] hands the runner out, no identifier
    was issued, the mapping is empty and there is no promise: whatever
    the kernel sent to the outbound callback during the first batch
    resolved nothing. *)
Theorem startup_resolves_nothing fuel (e : Engine) c w :
  createSwingsetRunner fuel e = Some (c, w) ->
  messageCount w = 0 /\ messageResponsePromises w = ∅ /\ promises w = [] /\
  (forall d value, EvResolve d value ∉ trace w).
Proof.
  unfold createSwingsetRunner, runBatch.
  destruct (runBatch_loop _ _ _ _ _ (fresh e)) as [[c' w1]|] eqn:Hrun; [|done].
  intros Hw.
  assert (w = w1) as -> by (destruct c'; by injection Hw as _ <-). clear Hw.
  apply runBatch_loop_actions in Hrun as (acts & Hacts & ->).
  destruct (kernel_actions_frame acts (fresh e) Hacts) as [Hcount Hmap].
  destruct (bridge_inv_execs acts _ (bridge_inv_fresh e)) as [Hc _ _ Hu].
  rewrite Hcount in Hc |- *. simpl in Hc.
  assert (promises (execs acts (fresh e)) = []) as Hnil
    by (apply length_zero_iff_nil; lia).
  split; [done|]. split; [by rewrite Hmap|]. split; [done|].
  intros d value. apply first_resolution_None, Hu. rewrite Hnil. simpl. lia.
Qed.

End Startup.

(** Two messages are accepted; the callback for [0] leaves the promise of
    [1] pending. *)
Lemma responses_not_swapped_witness :
  0 <> 1 /\
  messageResponsePromises
    (execs [ActAccept [VNum 1]; ActAccept [VNum 2]] (fresh (idle 0))) !! 1
  = Some 1%nat /\
  settled 1 (doOutboundBridge 0 (VNum 7)
               (execs [ActAccept [VNum 1]; ActAccept [VNum 2]]
                  (fresh (idle 0))))
  = None.
Proof.
  assert (messageResponsePromises
            (execs [ActAccept [VNum 1]; ActAccept [VNum 2]] (fresh (idle 0)))
          !! 1 = Some 1%nat) as Hentry by (vm_compute; reflexivity).
  split; [lia|]. split; [exact Hentry|].
  rewrite (responses_not_swapped (idle 0)
             [ActAccept [VNum 1]; ActAccept [VNum 2]] 0 (VNum 7) 1 1%nat
             ltac:(lia) Hentry).
  vm_compute. reflexivity.
Defined.

(** A message to the kernel that takes none. *)
Lemma failed_delivery_keeps_entry_witness :
  completion (deliverInbound (messageCount (fresh tt)) [VNum 1]
                (controller (fresh tt))) = Threw (VStr "closed") /\
  handleMessage (options := sourceOptions) 5 [VNum 1] (fresh tt)
  = Some (Threw (VStr "closed"), snd (accept [VNum 1] (fresh tt))) /\
  messageResponsePromises (snd (accept [VNum 1] (fresh tt))) !! 0
  = Some 0%nat.
Proof.
  split; [reflexivity|].
  destruct (failed_delivery_keeps_entry (kernel := closed)
              (options := sourceOptions) 5 [VNum 1]
              (fresh tt) (VStr "closed") eq_refl)
    as (Hthrew & _ & _ & Hentry).
  split; [exact Hthrew|exact Hentry].
Defined.

(** A runner made on a run queue of two cranks. *)
Lemma startup_resolves_nothing_witness :
  createSwingsetRunner (options := sourceOptions) 5 (idle 2)
  = Some (Returned tt,
          world_of (createSwingsetRunner (options := sourceOptions) 5 (idle 2))
                   (fresh (idle 2))) /\
  messageCount (world_of (createSwingsetRunner (options := sourceOptions) 5
                            (idle 2)) (fresh (idle 2))) = 0.
Proof.
  assert (createSwingsetRunner (options := sourceOptions) 5 (idle 2)
          = Some (Returned tt,
                  world_of (createSwingsetRunner (options := sourceOptions) 5
                              (idle 2)) (fresh (idle 2)))) as Hrun
    by (vm_compute; reflexivity).
  split; [exact Hrun|].
  exact (proj1 (startup_resolves_nothing (options := sourceOptions)
                  _ _ _ _ Hrun)).
Defined.

(** ** More on the sealer *)

Module SealerSeparation.
Import Sealer.

(** Objects are made and never unmade. *)
Lemma run_op_objects op (r : Realm) :
  exists made, objects (run_op op r) = objects r ++ made.
Proof.
  destruct op as [o| |sealer original label]; simpl.
  - by eexists.
  - exists []. by rewrite app_nil_r.
  - case_decide; [by eexists|]. exists []. by rewrite app_nil_r.
Qed.

Lemma run_objects ops (r : Realm) :
  exists made, objects (run ops r) = objects r ++ made.
Proof.
  revert r. induction ops as [|op ops IH]; intros r.
  - exists []. by rewrite app_nil_r.
  - simpl. destruct (IH (run_op op r)) as (made' & ->).
    destruct (run_op_objects op r) as (made & ->).
    exists (made ++ made'). by rewrite app_assoc.
Qed.

(** What a sealer seals while a program runs did not exist before. *)
Lemma sealed_by_new sealer ops (r : Realm) addr :
  addr ∈ sealed_by sealer ops r -> (length (objects r) <= addr)%nat.
Proof.
  revert r. induction ops as [|op ops IH]; intros r Hin; simpl in Hin.
  - by apply elem_of_nil in Hin.
  - assert (addr ∈ sealed_by sealer ops (run_op op r)
            -> (length (objects r) <= addr)%nat) as Hrest.
    { intros Hin'%IH. destruct (run_op_objects op r) as (made & Hmade).
      rewrite Hmade, length_app in Hin'. lia. }
    destruct op as [o| |s x label]; try by apply Hrest.
    case_decide; [|by apply Hrest].
    apply elem_of_cons in Hin as [->|Hin]; [done|by apply Hrest].
Qed.

(** X14. What one sealer has sealed, no other sealer unseals, be it a
    sealer made before or after, and whatever the program does next:
    [unseal] of another sealer gives [undefined] for the box. *)
Theorem other_sealer_unseals_nothing ops a b original label ops' :
  a <> b ->
  (a < length (unsealMaps (run ops empty)))%nat ->
  unseal b (fst (seal a original label (run ops empty)))
    (run ops' (snd (seal a original label (run ops empty)))) = VUndefined.
Proof.
  intros Hne Hvalid. set (r := run ops empty) in *.
  assert (keys_exist r) as Hr
    by apply SealerProperties.run_keys_exist, SealerProperties.empty_keys_exist.
  change (fst (seal a original label r)) with (VObj (length (objects r))).
  unfold unseal.
  destruct (unsealMaps (run ops' (snd (seal a original label r))) !! b)
    as [m|] eqn:Hm; [|done].
  destruct (m !! length (objects r)) as [x|] eqn:Haddr; [|done].
  exfalso.
  destruct (SealerProperties.run_keys_sealed ops' _ b m (length (objects r)) Hm)
    as [(m0 & Hm0 & Hsome)|Hin]; [by exists x| |].
  - apply SealerProperties.seal_maps in Hm0 as [[-> _]|[_ Hm0]]; [done|].
    pose proof (Hr b m0 _ Hm0 Hsome). lia.
  - apply sealed_by_new in Hin. simpl in Hin. rewrite length_app in Hin.
    simpl in Hin. lia.
Qed.

(** X15. A box is a new object: whatever sealers are made and whatever
    is sealed after a [seal], no later [seal], of any sealer and of any
    value, returns that box again. *)
Theorem seal_makes_new_box (r : Realm) a original label ops' b original' label' :
  fst (seal b original' label' (run ops' (snd (seal a original label r))))
  <> fst (seal a original label r).
Proof.
  destruct (run_objects ops' (snd (seal a original label r))) as (made & Hobjects).
  change (VObj (length (objects (run ops' (snd (seal a original label r)))))
          <> VObj (length (objects r))).
  rewrite Hobjects. simpl. rewrite !length_app. simpl.
  intros [= Heq]. lia.
Qed.

End SealerSeparation.

(** Two sealers: the second does not unseal the box of the first. *)
Lemma other_sealer_unseals_nothing_witness :
  0%nat <> 1%nat /\
  (0 < length (Sealer.unsealMaps
                 (Sealer.run [Sealer.OpMakeSealer; Sealer.OpMakeSealer]
                    Sealer.empty)))%nat /\
  Sealer.unseal 1
    (fst (Sealer.seal 0 (VStr "secret") (VStr "note")
            (Sealer.run [Sealer.OpMakeSealer; Sealer.OpMakeSealer]
               Sealer.empty)))
    (Sealer.run [Sealer.OpSeal 1 (VNum 5) (VStr "five")]
       (snd (Sealer.seal 0 (VStr "secret") (VStr "note")
               (Sealer.run [Sealer.OpMakeSealer; Sealer.OpMakeSealer]
                  Sealer.empty))))
  = VUndefined.
Proof.
  assert (0 < length (Sealer.unsealMaps
                        (Sealer.run [Sealer.OpMakeSealer; Sealer.OpMakeSealer]
                           Sealer.empty)))%nat as Hvalid by (vm_compute; lia).
  split; [lia|]. split; [exact Hvalid|].
  apply (SealerSeparation.other_sealer_unseals_nothing
           [Sealer.OpMakeSealer; Sealer.OpMakeSealer] 0 1 (VStr "secret")
           (VStr "note") [Sealer.OpSeal 1 (VNum 5) (VStr "five")]);
    [lia|exact Hvalid].
Defined.

(** ** The benchmark *)

Section BenchmarkProperties.
Context {Engine : Type} {kernel : Controller Engine} {options : Options}
        {promises_of_kernel : Benchmarked Engine}.
Implicit Types (w : World Engine).

Lemma committed_length (p q : Z) (tr : list Event) :
  length (committed p tr) = length (committed q tr).
Proof.
  revert p q. induction tr as [|ev tr IH]; intros p q; [done|].
  destruct ev; simpl; auto.
Qed.

Lemma committed_length_app (p : Z) (a b : list Event) :
  length (committed p (a ++ b))
  = (length (committed p a) + length (committed 0 b))%nat.
Proof.
  revert p. induction a as [|ev a IH]; intros p.
  - apply committed_length.
  - destruct ev; simpl; rewrite ?IH; done.
Qed.

Lemma runBenchmark_loop_returns fuel n i totalSteps log w total log' w' :
  runBenchmark_loop fuel n i totalSteps log w = Some (Returned total, log', w') ->
  follows w w' /\
  total - totalSteps = crankNumber w' - crankNumber w /\
  (exists new, log' = log ++ new
               /\ round_of <$> new = seqZ (i + 1) (Z.of_nat n)) /\
  (n <= length (committed 0 (since w w')))%nat /\
  (if n is O then w' = w else durable w' = controller w').
Proof.
  revert i totalSteps log w.
  induction n as [|n IH]; intros i totalSteps log w Hrun; simpl in Hrun.
  - injection Hrun as <- <- <-. split; [apply follows_refl|].
    split; [lia|]. split; [exists []; by rewrite app_nil_r|].
    split; [lia|done].
  - destruct (queueToVatExport _ _ _ (controller w)) as [roundResult e].
    assert (follows w (set_controller e w)) as Hf0
      by (apply (follows_untouched _ _ []); try done; simpl;
          by rewrite app_nil_r).
    destruct (runBatch fuel 0 true (set_controller e w))
      as [[[steps|x] w1]|] eqn:Hbatch; [|done|done].
    apply runBatch_loop_run in Hbatch.
    pose proof (batch_run_follows _ _ _ _ _ _ _ Hbatch) as Hf1.
    pose proof (batch_run_cranks _ _ _ _ _ _ _ Hbatch) as [_ Hsteps].
    specialize (Hsteps steps eq_refl).
    destruct (batch_run_committed _ _ _ _ _ _ Hbatch steps eq_refl)
      as [(pre & Hpre) Hdurable].
    apply IH in Hrun as (Hf2 & Htotal & (new & -> & Hnew) & Hcommits & Hstored).
    assert (follows w w1) as Hf01 by by eapply follows_trans.
    split; [by eapply follows_trans|]. simpl in Hsteps.
    split; [lia|]. split; [|split].
    + eexists (_ :: new). split; [by rewrite <- app_assoc|].
      rewrite fmap_cons, Hnew, (seqZ_cons (i + 1)) by lia.
      f_equal; [by destruct (String.eqb _ _)|]. f_equal; lia.
    + rewrite (since_trans w w1 w' Hf01 Hf2), (since_trans w _ w1 Hf0 Hf1).
      rewrite Hpre, !committed_length_app. simpl. lia.
    + destruct n as [|n]; [by subst w'|done].
Qed.

(** X16. When [runBenchmark] returns, what it returns is what it has
    added to [crankNumber], and it has logged one line for each round,
    the rounds [1] to [rounds] in order. *)
Theorem runBenchmark_reports_every_round fuel rounds w total log w' :
  runBenchmark fuel rounds w = Some (Returned total, log, w') ->
  crankNumber w' = crankNumber w + total /\
  round_of <$> log = seqZ 1 rounds.
Proof.
  intros (_ & Htotal & (new & -> & Hnew) & _)%runBenchmark_loop_returns.
  split; [lia|]. simpl. rewrite Hnew.
  destruct (decide (0 <= rounds)); [by rewrite Z2Nat.id|].
  by rewrite Z2Nat.nonpos, !seqZ_nil by lia.
Qed.


End BenchmarkProperties.

(** Two rounds on the counting kernel, in blocks of two. *)
Lemma runBenchmark_reports_every_round_witness :
  runBenchmark (options := blocks_of 2) 5 2 (fresh 0%nat)
  = Some (Returned 2,
          [Finished 1 "fulfilled" VUndefined; Finished 2 "fulfilled" VUndefined],
          bench_world (runBenchmark (options := blocks_of 2) 5 2 (fresh 0%nat))
                      (fresh 0%nat)) /\
  crankNumber (bench_world (runBenchmark (options := blocks_of 2) 5 2
                              (fresh 0%nat)) (fresh 0%nat)) = 2.
Proof.
  assert (runBenchmark (options := blocks_of 2) 5 2 (fresh 0%nat)
          = Some (Returned 2,
                  [Finished 1 "fulfilled" VUndefined;
                   Finished 2 "fulfilled" VUndefined],
                  bench_world (runBenchmark (options := blocks_of 2) 5 2
                                 (fresh 0%nat)) (fresh 0%nat))) as Hrun
    by (vm_compute; reflexivity).
  split; [exact Hrun|].
  destruct (runBenchmark_reports_every_round (options := blocks_of 2)
              _ _ _ _ _ _ Hrun) as [Hcranks _].
  rewrite Hcranks. reflexivity.
Defined.


(** ** The indirect configuration *)

Module IndirectConfigProperties.
Import IndirectConfig.

Section Generated.
Variable ToString : JSValue -> string.
Variable inherited : string -> JSValue.
Variable launcherPath : string.

Local Abbreviation property_key := (property_key ToString).
Local Abbreviation get := (get inherited).
Local Abbreviation rewrite_vat := (rewrite_vat ToString inherited).
Local Abbreviation rewrite_vats := (rewrite_vats ToString inherited).
Local Abbreviation copy_bundles := (copy_bundles inherited).
Local Abbreviation generateIndirectConfig :=
  (generateIndirectConfig ToString inherited launcherPath).
Local Abbreviation sourced := (sourced inherited).
Local Abbreviation all_sourced := (all_sourced inherited).
Local Abbreviation bundle_read := (bundle_read inherited).
Local Abbreviation linked := (linked ToString inherited).

Lemma own_keys {V : Type} name (o : list (string * V)) :
  name ∈ o.*1 <-> is_Some (own name o).
Proof.
  induction o as [|[k v] o IH]; simpl.
  - split; [by intros ?%elem_of_nil|by intros [? ?]].
  - rewrite elem_of_cons, IH. case_decide as Hk.
    + split; [by eexists|by left].
    + split; [by intros [?|?]|by right].
Qed.

Lemma lookup_assign {V : Type} name (v : V) (o : gmap string V) name' :
  assign name v o !! name'
  = if decide (name = name' /\ name <> "__proto__"%string) then Some v
    else o !! name'.
Proof.
  unfold assign. case_decide as Hproto.
  - rewrite decide_False; [done|]. intros [-> ?]. done.
  - rewrite lookup_insert. case_decide as Hname.
    + by rewrite decide_True.
    + rewrite decide_False; [done|]. by intros [? ?].
Qed.

Lemma assign_is_Some {V : Type} name (v : V) (o : gmap string V) name' :
  is_Some (o !! name') -> is_Some (assign name v o !! name').
Proof. rewrite lookup_assign. case_decide; [by eexists|done]. Qed.

(** What a pass of the loop does when it goes through. *)
Lemma rewrite_vat_done base vats vatName st st' :
  rewrite_vat base vats vatName st = Done st' ->
  exists newBundleName entry (vat' : Vat),
    st' = (assign (property_key newBundleName) entry st.1,
           assign vatName vat' st.2) /\
    bundle_read base (property_key newBundleName) entry /\
    vat' !! "bundleName"%string = Some newBundleName /\
    (forall name, name ∉ code_properties ->
       vat' !! name = default ∅ (own vatName vats) !! name) /\
    sourced (default ∅ (own vatName vats)) = true /\
    (base_bundles base = None ->
     existsb (fun name => truthy (get (default ∅ (own vatName vats)) name))
       ["sourceSpec"; "bundleSpec"; "bundle"]%string = true).
Proof.
  unfold rewrite_vat, IndirectConfig.sourced. simpl.
  set (baseVat := default ∅ (own vatName vats)).
  assert (forall field (v : JSValue) name,
            field ∈ code_properties -> name ∉ code_properties ->
            <["bundleName"%string := v]> (delete field baseVat) !! name
            = baseVat !! name) as Hkept.
  { intros field v name Hfield Hname.
    assert ("bundleName"%string <> name) as Hne1
      by (intros <-; apply Hname; unfold code_properties; do 3 right; by left).
    assert (field <> name) as Hne2 by (by intros <-).
    by rewrite lookup_insert_ne, lookup_delete_ne. }
  destruct (truthy (get baseVat "sourceSpec")) eqn:H1.
  { intros [= <-]. eexists (VStr ("bundle-" +:+ vatName)), _, _.
    split; [done|]. split; [exact H1|].
    split; [apply lookup_insert_eq|]. split; [|done].
    intros name. apply Hkept. by left. }
  destruct (truthy (get baseVat "bundleSpec")) eqn:H2.
  { intros [= <-]. eexists (VStr ("bundle-" +:+ vatName)), _, _.
    split; [done|]. split; [exact H2|].
    split; [apply lookup_insert_eq|]. split; [|done].
    intros name. apply Hkept. right. by left. }
  destruct (truthy (get baseVat "bundle")) eqn:H3.
  { intros [= <-]. eexists (VStr ("bundle-" +:+ vatName)), _, _.
    split; [done|]. split; [exact H3|].
    split; [apply lookup_insert_eq|]. split; [|done].
    intros name. apply Hkept. do 2 right. by left. }
  destruct (truthy (get baseVat "bundleName")) eqn:H4; [|done].
  destruct (base_bundles base) as [given|] eqn:Hgiven; [|done].
  intros [= <-]. eexists (get baseVat "bundleName"), _, _.
  split; [done|]. split; [by exists given|].
  split; [apply lookup_insert_eq|]. split; [|done].
  intros name Hname. rewrite lookup_insert_ne; [done|].
  intros <-. apply Hname. unfold code_properties. do 3 right. by left.
Qed.

(** A pass of the loop goes through when the vat says where its code is
    and there are bundles to read, and exits when the vat does not. *)
Lemma rewrite_vat_outcome base vats vatName st given :
  base_bundles base = Some given ->
  if sourced (default ∅ (own vatName vats))
  then exists st', rewrite_vat base vats vatName st = Done st'
  else rewrite_vat base vats vatName st = Exit "this can't happen".
Proof.
  intros Hgiven. unfold rewrite_vat, IndirectConfig.sourced. simpl.
  rewrite Hgiven.
  set (baseVat := default ∅ (own vatName vats)).
  destruct (truthy (get baseVat "sourceSpec")); [by eexists|].
  destruct (truthy (get baseVat "bundleSpec")); [by eexists|].
  destruct (truthy (get baseVat "bundle")); [by eexists|].
  destruct (truthy (get baseVat "bundleName")); [by eexists|done].
Qed.

Lemma rewrite_vats_done base vats keys st st' :
  (forall vatName, vatName ∈ keys -> is_Some (own vatName vats)) ->
  rewrite_vats base vats keys st = Done st' ->
  (linked base vats st -> linked base vats st') /\
  (forall vatName,
     is_Some (st'.2 !! vatName)
     <-> is_Some (st.2 !! vatName)
         \/ (vatName ∈ keys /\ vatName <> "__proto__"%string)) /\
  (forall vatName, vatName ∈ keys ->
     sourced (default ∅ (own vatName vats)) = true /\
     (base_bundles base = None ->
      existsb (fun name => truthy (get (default ∅ (own vatName vats)) name))
        ["sourceSpec"; "bundleSpec"; "bundle"]%string = true)).
Proof.
  revert st. induction keys as [|vatName keys IH]; intros st Hkeys Hrun;
    simpl in Hrun.
  - injection Hrun as <-. split; [done|]. split.
    + intros vatName. split; [by left|]. intros [?|[?%elem_of_nil _]]; done.
    + by intros vatName ?%elem_of_nil.
  - destruct (rewrite_vat base vats vatName st) as [st1| |] eqn:Hpass;
      [|done|done].
    apply rewrite_vat_done in Hpass
      as (n & entry & vat' & -> & Hread & Hname & Hkept & Hsourced & Hthree).
    destruct (IH _ (fun k Hk => Hkeys k (list_elem_of_further _ _ _ Hk)) Hrun)
      as (Hlinked & Hdom & Hall).
    split; [|split].
    + intros Hst. apply Hlinked. intros k v. simpl.
      rewrite lookup_assign. case_decide as Hk.
      * destruct Hk as [<- _]. intros [= <-].
        destruct (Hkeys vatName) as [vat Hvat]; [by left|].
        exists n, vat. split; [done|]. split; [done|]. split.
        -- intros Hproto. exists entry.
           by rewrite lookup_assign, decide_True.
        -- intros name Hcode. rewrite (Hkept name Hcode), Hvat. done.
      * intros Hv. destruct (Hst k v Hv) as (n' & vat & Hvat & Hn' & Hb & Hk').
        exists n', vat. split; [done|]. split; [done|]. split; [|done].
        intros Hproto. rewrite lookup_assign.
        destruct (decide (property_key n = property_key n'
                          /\ property_key n <> "__proto__"%string))
          as [[Heq _]|_]; [|by apply Hb].
        exists entry. by rewrite <- Heq.
    + intros k. rewrite Hdom. simpl. rewrite lookup_assign, elem_of_cons.
      case_decide as Hk.
      * destruct Hk as [<- Hproto]. split; [|intros _; left; by eexists].
        intros _. right. split; [by left|done].
      * split.
        -- intros [?|[? ?]]; [by left|right]. split; [by right|done].
        -- intros [?|[[->|?] ?]]; [by left| |by right].
           exfalso. by apply Hk.
    + intros k [->|Hk]%elem_of_cons; [done|by apply Hall].
Qed.

Lemma copy_bundles_lookup given keys (bundles : gmap string BundleEntry) name :
  fold_left
    (fun bundles bundleName =>
       assign bundleName
         (Given (default (inherited bundleName) (own bundleName given)))
         bundles)
    keys bundles !! name
  = if decide (name ∈ keys /\ name <> "__proto__"%string)
    then Some (Given (default (inherited name) (own name given)))
    else bundles !! name.
Proof.
  revert bundles. induction keys as [|k keys IH]; intros bundles;
    cbn [fold_left].
  - destruct (decide (name ∈ [] /\ name <> "__proto__"%string)) as [Hin|?];
      [by destruct Hin as [?%elem_of_nil _]|done].
  - rewrite IH, lookup_assign.
    destruct (decide (name ∈ keys /\ name <> "__proto__"%string))
      as [[Hin Hproto]|Hrest].
    + rewrite decide_True; [done|]. split; [by right|done].
    + destruct (decide (k = name /\ k <> "__proto__"%string))
        as [[-> Hproto]|Hhead].
      * rewrite decide_True; [done|]. split; [by left|done].
      * rewrite decide_False; [done|].
        intros [[->|Hin]%elem_of_cons Hproto]; [by apply Hhead|by apply Hrest].
Qed.

(** X18. Every vat that the launcher is given comes from a vat of
    [baseConfig] of the same name: it has a [bundleName]; the generated
    [bundles] have a property of that name (unless the name is
    [__proto__]), which is a bundle made of a truthy [sourceSpec],
    [bundleSpec] or [bundle], or else what [baseConfig.bundles] reads as
    under that name, [undefined] when it has no such bundle; and but for
    the four properties that say where its code is, the vat has the
    properties of the vat it comes from. *)
Theorem generated_vats_are_linked base cfg vatName (vat' : Vat) :
  generateIndirectConfig base = Done cfg ->
  launcherVats cfg !! vatName = Some vat' ->
  exists newBundleName vats (vat : Vat),
    base_vats base = Some vats /\ own vatName vats = Some vat /\
    vat' !! "bundleName"%string = Some newBundleName /\
    (property_key newBundleName <> "__proto__"%string ->
     exists entry,
       bundles cfg !! property_key newBundleName = Some entry /\
       bundle_read base (property_key newBundleName) entry) /\
    (forall name, name ∉ code_properties -> vat' !! name = vat !! name).
Proof.
  unfold generateIndirectConfig.
  destruct (base_vats base) as [vats|]; [|by intros [= <-]].
  destruct (rewrite_vats base vats vats.*1 (∅, ∅)) as [[bs vs]| |] eqn:Hrun;
    [|done|done].
  intros [= <-] Hvat'. simpl in Hvat'.
  destruct (rewrite_vats_done _ _ _ _ _ (fun k Hk => proj1 (own_keys k vats) Hk)
              Hrun) as (Hlinked & _ & _).
  assert (linked base vats (∅, ∅)) as Hempty
    by (intros k v Hv; simpl in Hv; by rewrite lookup_empty in Hv).
  destruct (Hlinked Hempty vatName vat' Hvat')
    as (n & vat & Hvat & Hn & Hbundle & Hkept).
  exists n, vats, vat. split; [done|]. split; [done|]. split; [done|].
  split; [|done]. intros Hproto.
  destruct (Hbundle Hproto) as (entry & Hentry & Hread). simpl in *.
  destruct (base_bundles base) as [given|] eqn:Hgiven; [|by exists entry].
  unfold IndirectConfig.copy_bundles. rewrite copy_bundles_lookup.
  case_decide; [|by exists entry].
  eexists. split; [done|]. by exists given.
Qed.

(** X19. Every bundle of [baseConfig] is in the generated [bundles]
    under its name (unless the name is [__proto__]), as it was given: it
    takes the place of a bundle made for a vat under that name. *)
Theorem base_bundles_are_kept base cfg given name v :
  generateIndirectConfig base = Done cfg ->
  base_bundles base = Some given ->
  own name given = Some v ->
  name <> "__proto__"%string ->
  bundles cfg !! name = Some (Given v).
Proof.
  unfold generateIndirectConfig. intros Hdone Hgiven Hown Hproto.
  rewrite Hgiven in Hdone.
  destruct (match base_vats base with
            | Some vats => rewrite_vats base vats vats.*1 (∅, ∅)
            | None => Done (∅, ∅)
            end) as [[bs vs]| |]; [|done|done].
  injection Hdone as <-. simpl.
  unfold IndirectConfig.copy_bundles.
  rewrite copy_bundles_lookup, decide_True, Hown; [done|].
  split; [|done]. apply own_keys. by eexists.
Qed.

(** X20. The generated configuration boots the launcher, to which it
    hands the [bootstrap] of [baseConfig] and a vat for each name of
    [baseConfig.vats] (but [__proto__]), and for no other name. *)
Theorem launcher_gets_every_vat base cfg :
  generateIndirectConfig base = Done cfg ->
  bootstrap cfg = "launcher"%string /\
  launcherSourceSpec cfg = launcherPath /\
  launcherBootstrap cfg = base_bootstrap base /\
  (forall vatName,
     is_Some (launcherVats cfg !! vatName)
     <-> vatName <> "__proto__"%string
         /\ exists vats, base_vats base = Some vats /\ vatName ∈ vats.*1).
Proof.
  unfold generateIndirectConfig.
  destruct (base_vats base) as [vats|].
  - destruct (rewrite_vats base vats vats.*1 (∅, ∅)) as [[bs vs]| |] eqn:Hrun;
      [|done|done].
    destruct (rewrite_vats_done _ _ _ _ _
                (fun k Hk => proj1 (own_keys k vats) Hk) Hrun)
      as (_ & Hdom & _).
    intros [= <-]. simpl. do 3 (split; [done|]).
    intros vatName. rewrite Hdom. simpl. rewrite lookup_empty. split.
    + intros [[? ?]|[Hin Hproto]]; [done|]. split; [done|by exists vats].
    + intros [Hproto (vats' & [= <-] & Hin)]. by right.
  - intros [= <-]. simpl. do 3 (split; [done|]).
    intros vatName. rewrite lookup_empty. split.
    + by intros [? ?].
    + by intros [_ (vats & ? & _)].
Qed.

Lemma rewrite_vats_outcome base vats keys st given :
  base_bundles base = Some given ->
  if forallb (fun vatName => sourced (default ∅ (own vatName vats))) keys
  then exists st', rewrite_vats base vats keys st = Done st'
  else rewrite_vats base vats keys st = Exit "this can't happen".
Proof.
  intros Hgiven. revert st. induction keys as [|vatName keys IH]; intros st.
  - by eexists.
  - simpl. pose proof (rewrite_vat_outcome base vats vatName st given Hgiven)
      as Hpass.
    destruct (sourced (default ∅ (own vatName vats))); simpl.
    + destruct Hpass as [st1 ->]. apply IH.
    + by rewrite Hpass.
Qed.

(** X21. When [baseConfig] has bundles, a configuration is generated if
    every vat says where its code is, by a truthy [sourceSpec],
    [bundleSpec], [bundle] or [bundleName]; if a vat does not, the
    function ends in [fail('this can\'t happen')], which exits. *)
Theorem generation_needs_sourced_vats base given :
  base_bundles base = Some given ->
  if all_sourced base
  then exists cfg, generateIndirectConfig base = Done cfg
  else generateIndirectConfig base = Exit "this can't happen".
Proof.
  intros Hgiven. unfold IndirectConfig.all_sourced, generateIndirectConfig.
  destruct (base_vats base) as [vats|]; [|by eexists].
  pose proof (rewrite_vats_outcome base vats vats.*1 (∅, ∅) given Hgiven)
    as Hrun.
  destruct (forallb _ _).
  - destruct Hrun as [[bs vs] ->]. by eexists.
  - by rewrite Hrun.
Qed.

(** X22. When [baseConfig.bundles] is [undefined] or [null], no
    configuration is generated if a vat has neither a truthy [sourceSpec]
    nor [bundleSpec] nor [bundle]: a [bundleName] is of no use to it, for
    reading the bundle that it names throws. *)
Theorem bundleName_needs_bundles base vats vatName cfg :
  base_bundles base = None ->
  base_vats base = Some vats ->
  vatName ∈ vats.*1 ->
  existsb (fun name => truthy (get (default ∅ (own vatName vats)) name))
    ["sourceSpec"; "bundleSpec"; "bundle"]%string = false ->
  generateIndirectConfig base <> Done cfg.
Proof.
  intros Hnone Hvats Hin Hthree. unfold generateIndirectConfig.
  rewrite Hvats.
  destruct (rewrite_vats base vats vats.*1 (∅, ∅)) as [[bs vs]| |] eqn:Hrun;
    [|done|done].
  destruct (rewrite_vats_done _ _ _ _ _ (fun k Hk => proj1 (own_keys k vats) Hk)
              Hrun) as (_ & _ & Hall).
  destruct (Hall vatName Hin) as [_ Hneeds].
  rewrite (Hneeds Hnone) in Hthree. done.
Qed.

End Generated.

End IndirectConfigProperties.

Module IndirectConfigExamples.
Import IndirectConfig.

Lemma example_is_generated :
  example_generate example_base
  = Done (config_of (example_generate example_base)).
Proof. vm_compute. reflexivity. Qed.

Lemma generated_vats_are_linked_witness :
  example_generate example_base
  = Done (config_of (example_generate example_base)) /\
  launcherVats (config_of (example_generate example_base)) !! "bob"%string
  = Some (<["bundleName"%string := VStr "shared"]> ∅) /\
  exists newBundleName vats (vat : Vat),
    base_vats example_base = Some vats /\ own "bob"%string vats = Some vat /\
    (<["bundleName"%string := VStr "shared"]> ∅ : Vat) !! "bundleName"%string
    = Some newBundleName /\
    (property_key (fun _ => "[object Object]"%string) newBundleName
     <> "__proto__"%string ->
     exists entry,
       bundles (config_of (example_generate example_base))
       !! property_key (fun _ => "[object Object]"%string) newBundleName
       = Some entry /\
       bundle_read (fun _ => VUndefined) example_base
         (property_key (fun _ => "[object Object]"%string) newBundleName)
         entry) /\
    (forall name, name ∉ code_properties ->
       (<["bundleName"%string := VStr "shared"]> ∅ : Vat) !! name = vat !! name).
Proof.
  assert (launcherVats (config_of (example_generate example_base))
          !! "bob"%string
          = Some (<["bundleName"%string := VStr "shared"]> ∅)) as Hbob
    by (vm_compute; reflexivity).
  split; [exact example_is_generated|]. split; [exact Hbob|].
  exact (IndirectConfigProperties.generated_vats_are_linked
           _ _ _ _ _ _ _ example_is_generated Hbob).
Defined.

Lemma base_bundles_are_kept_witness :
  example_generate example_base
  = Done (config_of (example_generate example_base)) /\
  base_bundles example_base = Some [("shared"%string, VObj 0)] /\
  own "shared"%string [("shared"%string, VObj 0)] = Some (VObj 0) /\
  "shared"%string <> "__proto__"%string /\
  bundles (config_of (example_generate example_base)) !! "shared"%string
  = Some (Given (VObj 0)).
Proof.
  split; [exact example_is_generated|]. split; [reflexivity|].
  split; [reflexivity|]. split; [discriminate|].
  apply (IndirectConfigProperties.base_bundles_are_kept
           _ _ _ _ _ [("shared"%string, VObj 0)] "shared"%string (VObj 0)
           example_is_generated eq_refl eq_refl).
  discriminate.
Defined.

Lemma launcher_gets_every_vat_witness :
  example_generate example_base
  = Done (config_of (example_generate example_base)) /\
  launcherBootstrap (config_of (example_generate example_base)) = VStr "boot".
Proof.
  split; [exact example_is_generated|].
  destruct (IndirectConfigProperties.launcher_gets_every_vat
              _ _ _ _ _ example_is_generated) as (_ & _ & Hboot & _).
  exact Hboot.
Defined.

Lemma generation_needs_sourced_vats_witness :
  base_bundles example_base = Some [("shared"%string, VObj 0)] /\
  exists cfg, example_generate example_base = Done cfg.
Proof.
  split; [reflexivity|].
  exact (IndirectConfigProperties.generation_needs_sourced_vats
           (fun _ => "[object Object]"%string) (fun _ => VUndefined)
           "/vat-launcher.js" example_base _ eq_refl).
Defined.

Lemma bundleName_needs_bundles_witness :
  base_bundles example_without_bundles = None /\
  base_vats example_without_bundles = base_vats example_base /\
  existsb (fun name =>
             truthy (get (fun _ => VUndefined)
                       (<["bundleName"%string := VStr "shared"]> ∅) name))
    ["sourceSpec"; "bundleSpec"; "bundle"]%string = false /\
  example_generate example_without_bundles
  <> Done (config_of (example_generate example_base)).
Proof.
  split; [reflexivity|]. split; [reflexivity|].
  split; [vm_compute; reflexivity|].
  apply (IndirectConfigProperties.bundleName_needs_bundles
           _ _ _ example_without_bundles _ "bob"%string _ eq_refl eq_refl).
  - right. left.
  - vm_compute. reflexivity.
Defined.

End IndirectConfigExamples.

(** ** The replay of the log *)

Module ReplayLogProperties.
Import ReplayLog.

Section Replayed.
Context {M : Type} {machines : Machine M}.
Variable defaultLogPath : string.
Variable parse : string -> Completion (JSValue * JSValue).

(** [split] yields at least one piece. *)
Lemma split_cons separator s :
  exists line lines, split separator s = line :: lines.
Proof.
  destruct s as [|c rest]; simpl; [by eexists _, _|].
  destruct (Ascii.eqb c separator); [by eexists _, _|].
  destruct (split separator rest); by eexists _, _.
Qed.

(** The pieces of a text are those before a separator and those after
    it. *)
Lemma split_app separator a b :
  split separator (a +:+ String separator b)
  = split separator a ++ split separator b.
Proof.
  induction a as [|c a IH]; simpl.
  - by rewrite Ascii.eqb_refl.
  - destruct (Ascii.eqb c separator); [by rewrite IH|].
    rewrite IH.
    destruct (split_cons separator a) as (line & lines & ->). done.
Qed.

(** A text that ends with the separator has an empty last piece. *)
Lemma split_end separator a :
  EmptyString ∈ split separator (a +:+ String separator EmptyString).
Proof.
  rewrite split_app. apply elem_of_app. right. simpl.
  by apply list_elem_of_singleton.
Qed.

(** The calls that the loop makes are the entries of the first lines,
    of all of them when it finishes. *)
Lemma replayLines_handled lines m st :
  exists n, (n <= length lines)%nat /\
    Returned <$> handled (replayLines parse lines m st).2
    = (Returned <$> handled st) ++ (parse <$> take n lines) /\
    ((replayLines parse lines m st).1 = Finished -> n = length lines).
Proof.
  revert m st. induction lines as [|entry lines IH]; intros m st; simpl.
  - exists O. split; [lia|]. split; [by rewrite app_nil_r|done].
  - destruct (parse entry) as [[id command]|x] eqn:Hparse.
    + destruct (machine_handleMessage id command m (files st))
        as [[[[v|x] m'] fs]|] eqn:Hcall.
      * destruct (IH m' (MkReplay fs (Some m') (handled st ++ [(id, command)])
                           (errors st))) as (n & Hn & Hcalls & Hend).
        exists (S n). split; [lia|]. split.
        -- rewrite Hcalls. simpl. rewrite fmap_app, <- app_assoc. simpl.
           by rewrite Hparse.
        -- intros Hfin. by rewrite (Hend Hfin).
      * exists 1%nat. split; [lia|]. split; [|done].
        simpl. rewrite fmap_app. simpl. by rewrite Hparse.
      * exists 1%nat. split; [lia|]. split; [|done].
        simpl. rewrite fmap_app. simpl. by rewrite Hparse.
    + exists O. split; [lia|]. split; [by rewrite app_nil_r|done].
Qed.

(** The loop does not finish over a line that does not parse. *)
Lemma replayLines_stops lines m st entry x :
  parse entry = Threw x -> entry ∈ lines ->
  (replayLines parse lines m st).1 <> Finished.
Proof.
  intros Hparse. revert m st.
  induction lines as [|line lines IH]; intros m st Hin.
  - by apply elem_of_nil in Hin.
  - simpl. destruct (decide (line = entry)) as [->|Hne].
    + by rewrite Hparse.
    + apply elem_of_cons in Hin as [Heq|Hin]; [congruence|].
      destruct (parse line) as [[id command]|y]; [|done].
      destruct (machine_handleMessage id command m (files st))
        as [[[[v|y] m'] fs]|]; [|done|done].
      by apply IH.
Qed.

(** What [replayPastFromDisk] does when the machine is there and the log
    is a file. *)
Lemma replay_of_file filePath fs m fs1 content :
  createMachine fs = Some (Returned m, fs1) ->
  fs1 !! defaultLogPath = Some (File content) ->
  replayPastFromDisk defaultLogPath parse filePath fs
  = replayLines parse (split newline content) m (MkReplay fs1 (Some m) [] []).
Proof.
  intros Hmachine Hfile. unfold replayPastFromDisk. rewrite Hmachine.
  unfold ensureLogfileExists, stat. simpl. rewrite Hfile.
  unfold readFile. simpl. by rewrite Hfile.
Qed.

(** X23. When the machine is created and the log is a file,
    [replayPastFromDisk] hands the entries of the log to
    [machine.handleMessage] in the order of the lines, none left out and
    none twice, up to some line: the calls it has made are the parsed
    entries of the first [n] lines. When it finishes, they are those of
    all the lines. *)
Theorem replay_follows_log filePath fs m fs1 content :
  createMachine fs = Some (Returned m, fs1) ->
  fs1 !! defaultLogPath = Some (File content) ->
  exists n, (n <= length (split newline content))%nat /\
    Returned <$>
      handled (replayPastFromDisk defaultLogPath parse filePath fs).2
    = parse <$> take n (split newline content) /\
    ((replayPastFromDisk defaultLogPath parse filePath fs).1 = Finished ->
     n = length (split newline content)).
Proof.
  intros Hmachine Hfile.
  rewrite (replay_of_file _ _ _ _ _ Hmachine Hfile).
  apply (replayLines_handled _ m (MkReplay fs1 (Some m) [] [])).
Qed.

(** X24. A log with an empty line is never replayed to its end, whatever
    the machine does: [JSON.parse] throws on the empty text, so
    [replayPastFromDisk] does not finish (it throws, unless an earlier
    call of the machine threw or hangs). A log that is empty or ends with
    a line feed has such a line, as [split] cuts it. *)
Theorem blank_line_stops_replay filePath fs m fs1 content x :
  createMachine fs = Some (Returned m, fs1) ->
  fs1 !! defaultLogPath = Some (File content) ->
  EmptyString ∈ split newline content ->
  parse EmptyString = Threw x ->
  (replayPastFromDisk defaultLogPath parse filePath fs).1 <> Finished.
Proof.
  intros Hmachine Hfile Hblank Hparse.
  rewrite (replay_of_file _ _ _ _ _ Hmachine Hfile).
  by apply (replayLines_stops _ _ _ EmptyString x).
Qed.

(** X25. When there is no log, [replayPastFromDisk] writes one with the
    default entry and replays it: the machine gets exactly one message,
    of the author ["0"] with the command ["0"], it gets it when the log
    is written, and the replay finishes exactly when the machine answers
    it. *)
Theorem missing_log_replays_default filePath fs m fs1 :
  createMachine fs = Some (Returned m, fs1) ->
  fs1 !! defaultLogPath = None ->
  parse defaultEntry = Returned (VStr "0", VStr "0") ->
  handled (replayPastFromDisk defaultLogPath parse filePath fs).2
  = [(VStr "0", VStr "0")] /\
  errors (replayPastFromDisk defaultLogPath parse filePath fs).2 = [] /\
  ((replayPastFromDisk defaultLogPath parse filePath fs).1 = Finished <->
   exists v m' fs',
     machine_handleMessage (VStr "0") (VStr "0") m
       (<[defaultLogPath := File defaultEntry]> fs1)
     = Some (Returned v, m', fs')).
Proof.
  intros Hmachine Hfile Hparse.
  assert (replayPastFromDisk defaultLogPath parse filePath fs
          = replayLines parse [defaultEntry] m
              (MkReplay (<[defaultLogPath := File defaultEntry]> fs1)
                 (Some m) [] [])) as ->.
  { unfold replayPastFromDisk. rewrite Hmachine.
    unfold ensureLogfileExists, stat, writeFile. cbn [files]. rewrite Hfile.
    cbn [String.eqb Ascii.eqb Bool.eqb fmap option_fmap option_map files
         machine handled errors].
    unfold readFile. cbn [files]. rewrite lookup_insert_eq.
    by assert (split newline defaultEntry = [defaultEntry]) as ->
      by reflexivity. }
  cbn [replayLines]. rewrite Hparse. cbn [files handled errors app].
  destruct (machine_handleMessage (VStr "0") (VStr "0") m
              (<[defaultLogPath := File defaultEntry]> fs1))
    as [[[[v|x] m'] fs']|]; cbn [fst snd handled errors].
  - split; [done|]. split; [done|]. split; [by eexists _, _, _|done].
  - split; [done|]. split; [done|].
    split; [done|]. by intros (? & ? & ? & ?).
  - split; [done|]. split; [done|].
    split; [done|]. by intros (? & ? & ? & ?).
Qed.

(** X26. When [stat] fails on the log with a code other than [ENOENT],
    [replayPastFromDisk] gives the error to [console.error] and throws
    it: no message is handled and no file is written, though the machine
    has been created. *)
Theorem unreadable_log_stops_replay filePath fs m fs1 code :
  createMachine fs = Some (Returned m, fs1) ->
  fs1 !! defaultLogPath = Some (Failing code) ->
  code <> "ENOENT"%string ->
  replayPastFromDisk defaultLogPath parse filePath fs
  = (Rejected (FsError code), MkReplay fs1 (Some m) [] [FsError code]).
Proof.
  intros Hmachine Hfile Hcode.
  unfold replayPastFromDisk. rewrite Hmachine.
  unfold ensureLogfileExists, stat. cbn [files]. rewrite Hfile.
  apply String.eqb_neq in Hcode. by rewrite Hcode.
Qed.

End Replayed.

End ReplayLogProperties.

Module ReplayLogExamples.
Import ReplayLog.

Lemma replay_follows_log_witness :
  @createMachine nat counter example_files = Some (Returned O, example_files) /\
  example_files !! "log.txt"%string = Some (File example_log) /\
  exists n, (n <= length (split newline example_log))%nat /\
    Returned <$> handled
      (replayPastFromDisk (machines := counter) "log.txt" example_parse
         "log.txt" example_files).2
    = example_parse <$> take n (split newline example_log) /\
    ((replayPastFromDisk (machines := counter) "log.txt" example_parse
        "log.txt" example_files).1 = Finished ->
     n = length (split newline example_log)).
Proof.
  assert (example_files !! "log.txt"%string = Some (File example_log))
    as Hfile by (vm_compute; reflexivity).
  split; [reflexivity|]. split; [exact Hfile|].
  exact (ReplayLogProperties.replay_follows_log (machines := counter)
           "log.txt" example_parse "log.txt" example_files O example_files
           example_log eq_refl Hfile).
Defined.

Lemma blank_line_stops_replay_witness :
  @createMachine nat counter example_files = Some (Returned O, example_files) /\
  example_files !! "log.txt"%string = Some (File example_log) /\
  EmptyString ∈ split newline example_log /\
  example_parse EmptyString = Threw (VStr "SyntaxError") /\
  (replayPastFromDisk (machines := counter) "log.txt" example_parse
     "log.txt" example_files).1 <> Finished.
Proof.
  assert (example_files !! "log.txt"%string = Some (File example_log))
    as Hfile by (vm_compute; reflexivity).
  assert (EmptyString ∈ split newline example_log) as Hblank
    by exact (ReplayLogProperties.split_end newline
                (defaultEntry +:+ String newline "ping")).
  split; [reflexivity|]. split; [exact Hfile|]. split; [exact Hblank|].
  split; [reflexivity|].
  exact (ReplayLogProperties.blank_line_stops_replay (machines := counter)
           "log.txt" example_parse "log.txt" example_files O example_files
           example_log (VStr "SyntaxError") eq_refl Hfile Hblank eq_refl).
Defined.

Lemma missing_log_replays_default_witness :
  @createMachine nat counter ∅ = Some (Returned O, ∅) /\
  (∅ : FS) !! "log.txt"%string = None /\
  example_parse defaultEntry = Returned (VStr "0", VStr "0") /\
  handled
    (replayPastFromDisk (machines := counter) "log.txt" example_parse
       "log.txt" ∅).2
  = [(VStr "0", VStr "0")].
Proof.
  assert ((∅ : FS) !! "log.txt"%string = None) as Hfile
    by (vm_compute; reflexivity).
  assert (example_parse defaultEntry = Returned (VStr "0", VStr "0"))
    as Hparse by (vm_compute; reflexivity).
  split; [reflexivity|]. split; [exact Hfile|]. split; [exact Hparse|].
  exact (proj1 (ReplayLogProperties.missing_log_replays_default
                  (machines := counter) "log.txt" example_parse "log.txt"
                  ∅ O ∅ eq_refl Hfile Hparse)).
Defined.

Lemma unreadable_log_stops_replay_witness :
  @createMachine nat counter locked_files = Some (Returned O, locked_files) /\
  locked_files !! "log.txt"%string = Some (Failing "EACCES") /\
  "EACCES"%string <> "ENOENT"%string /\
  replayPastFromDisk (machines := counter) "log.txt" example_parse
    "log.txt" locked_files
  = (Rejected (FsError "EACCES"),
     MkReplay locked_files (Some O) [] [FsError "EACCES"]).
Proof.
  assert (locked_files !! "log.txt"%string = Some (Failing "EACCES"))
    as Hfile by (vm_compute; reflexivity).
  assert ("EACCES"%string <> "ENOENT"%string) as Hcode by discriminate.
  split; [reflexivity|]. split; [exact Hfile|]. split; [exact Hcode|].
  exact (ReplayLogProperties.unreadable_log_stops_replay
           (machines := counter) "log.txt" example_parse "log.txt"
           locked_files O locked_files "EACCES" eq_refl Hfile Hcode).
Defined.

End ReplayLogExamples.
